(** * stranger-chat: the matchmaking, pairing and relay server

    A shallow embedding of the Socket.IO server of the repository (the
    handlers registered in [io.on('connection', ...)]) and of its text
    moderation, followed by the properties the specification states about
    them.

    - [Moderation]: [BANNED_WORDS], [containsBannedWords], [filterMessage].
    - [Server]: the shared store ([waitingUsers], [chatPairs],
      [videoChatPairs], [reportedUsers]), [findBestMatch] and one handler
      per inbound event, each returning the new store and the list of
      emitted events.
    - [Client]: the client's copy of the moderation, the tag handlers and
      the start button of the home page, and what the chat page sends.

    Strings are sequences of code units; the embedding uses [string] with
    8-bit characters read as the code units U+0000..U+00FF. *)

From Stdlib Require Import Ascii String.
From stdpp Require Import gmap strings.

Local Open Scope string_scope.
Local Open Scope list_scope.

(** ** Text moderation *)

Module Moderation.

Definition BANNED_WORDS : list string :=
  [ "n1gg"; "n1gger"; "n1gga"; "n1ggas"; "n1ggers";
    "r3tard"; "r3tarded";
    "f4ggot"; "f4g";
    "k1ke";
    "sp1c"; "sp1ck";
    "ch1nk";
    "w3tback";
    "t0welhead";
    "g00k";
    "d1ke";
    "tr4nny";
    "wh0re"; "slut";
    "n4zi"; "n4zis";
    "terrorist"; "terrorism" ].

Definition code (c : ascii) : nat := nat_of_ascii c.

Definition between (lo hi n : nat) : bool := ((lo <=? n) && (n <=? hi))%nat.

(** [String.prototype.toLowerCase] on one code unit below 256: A-Z and the
    Latin-1 capitals U+00C0..U+00DE (but not the sign U+00D7) move up by 32. *)
Definition toLowerCase_char (c : ascii) : ascii :=
  let n := code c in
  if between 65 90 n || (between 192 222 n && negb (n =? 215)%nat)
  then ascii_of_nat (n + 32) else c.

(** The character class [a-z0-9]. *)
Definition is_az09 (c : ascii) : bool :=
  between 97 122 (code c) || between 48 57 (code c).

(** [s.toLowerCase().replace(/[^a-z0-9]/g, '')] *)
Definition normalize (s : list ascii) : list ascii :=
  List.filter is_az09 (List.map toLowerCase_char s).

Fixpoint startsWith (needle hay : list ascii) : bool :=
  match needle, hay with
  | [], _ => true
  | _ :: _, [] => false
  | a :: needle', b :: hay' => Ascii.eqb a b && startsWith needle' hay'
  end.

(** [hay.includes(needle)] *)
Fixpoint includes (needle hay : list ascii) : bool :=
  startsWith needle hay ||
  match hay with
  | [] => false
  | _ :: hay' => includes needle hay'
  end.

Definition containsBannedWords (message : string) : bool :=
  let normalizedMessage := normalize (list_ascii_of_string message) in
  List.existsb
    (fun word =>
       let normalizedWord := normalize (list_ascii_of_string word) in
       includes normalizedWord normalizedMessage)
    BANNED_WORDS.

(** Case folding of a regular expression with the [i] flag and without the
    [u] flag: a code unit is compared through its upper case.  Below 256
    that moves a-z and U+00E0..U+00FE (but not U+00F7) down by 32; the code
    units whose upper case is not a single code unit below 256 (U+00B5,
    U+00DF, U+00FF) stay themselves, as nothing else below 256 folds to
    them. *)
Definition canonicalize (c : ascii) : ascii :=
  let n := code c in
  if between 97 122 n || (between 224 254 n && negb (n =? 247)%nat)
  then ascii_of_nat (n - 32) else c.

Definition same_fold (a b : ascii) : bool :=
  Ascii.eqb (canonicalize a) (canonicalize b).

(** Does the literal pattern [word], under the [i] flag, match at the start
    of [s]?  Every banned word is a literal: it has no regular-expression
    metacharacter. *)
Fixpoint matches_at (word s : list ascii) : bool :=
  match word, s with
  | [], _ => true
  | _ :: _, [] => false
  | p :: word', c :: s' => same_fold p c && matches_at word' s'
  end.

Definition stars : list ascii := list_ascii_of_string "***".

(** [s.replace(new RegExp(word, 'gi'), '***')] for a non-empty literal
    [word]: scan from the left; at a match emit the replacement and jump
    over the matched text ([skip] counts the characters of it still to
    jump), elsewhere copy one character. *)
Fixpoint replace_gi (word s : list ascii) (skip : nat) : list ascii :=
  match s with
  | [] => []
  | c :: rest =>
      match skip with
      | S k => replace_gi word rest k
      | O =>
          if matches_at word (c :: rest)
          then stars ++ replace_gi word rest (length word - 1)
          else c :: replace_gi word rest 0
      end
  end.

(** The [BANNED_WORDS.forEach] loop of [filterMessage]. *)
Definition replaceBanned (words : list string) (s : list ascii) : list ascii :=
  fold_left (fun filteredMessage word =>
               replace_gi (list_ascii_of_string word) filteredMessage 0)
            words s.

Definition filterMessage (message : string) : string :=
  if negb (containsBannedWords message) then message
  else string_of_list_ascii
         (replaceBanned BANNED_WORDS (list_ascii_of_string message)).

(** The test [filteredMessage !== message] of the message handler. *)
Definition wasModified (message : string) : bool :=
  negb (String.eqb (filterMessage message) message).

(** A literal occurrence of [word] in [s], as the regular expression finds
    it. *)
Fixpoint occurs (word s : list ascii) : bool :=
  matches_at word s ||
  match s with
  | [] => false
  | _ :: s' => occurs word s'
  end.

(** A non-empty word over [a-z0-9], as every banned word is. *)
Definition plain_word (w : list ascii) : bool :=
  negb (length w =? 0)%nat && forallb is_az09 w.

Definition all_ascii : list ascii := List.map ascii_of_nat (seq 0 256).

End Moderation.

(** ** The server *)

Module Server.
Import Moderation.

(** *** Values received from a client *)

(** A payload is whatever the client serialised.  The elements of an array
    are strings, as [UserPreferences] declares for [tags]. *)
#[warnings="-register-all"]
Inductive jsval :=
| JUndefined
| JNull
| JBool (b : bool)
| JNum (n : Z)
| JStr (s : string)
| JArr (items : list string)
| JObj (fields : list (string * jsval)).

Definition truthy (v : jsval) : bool :=
  match v with
  | JUndefined | JNull => false
  | JBool b => b
  | JNum n => negb (n =? 0)%Z
  | JStr s => negb (String.eqb s "")
  | JArr _ | JObj _ => true
  end.

Fixpoint get_field (name : string) (fields : list (string * jsval)) : jsval :=
  match fields with
  | [] => JUndefined
  | (k, v) :: rest => if String.eqb k name then v else get_field name rest
  end.

(** [v.name] for a [v] that is neither [null] nor [undefined]. *)
Definition prop (v : jsval) (name : string) : jsval :=
  match v with
  | JObj fields => get_field name fields
  | _ => JUndefined
  end.

Definition isArray (v : jsval) : bool :=
  match v with JArr _ => true | _ => false end.
Definition typeof_string (v : jsval) : bool :=
  match v with JStr _ => true | _ => false end.
Definition typeof_boolean (v : jsval) : bool :=
  match v with JBool _ => true | _ => false end.

Record UserPreferences := {
  tags : list string;
  language : string;
  ageGroup : string;
  agreeToGuidelines : bool
}.

Record WaitingUser := {
  socketId : string;
  preferences : UserPreferences;
  isVideoChat : bool
}.

Definition validatePreferences (preferences : jsval) : bool :=
  truthy preferences &&
  isArray (prop preferences "tags") &&
  typeof_string (prop preferences "language") &&
  typeof_string (prop preferences "ageGroup") &&
  typeof_boolean (prop preferences "agreeToGuidelines").

(** The payload read at the type [validatePreferences] has checked. *)
Definition as_preferences (v : jsval) : UserPreferences :=
  {| tags := match prop v "tags" with JArr l => l | _ => [] end;
     language := match prop v "language" with JStr s => s | _ => "" end;
     ageGroup := match prop v "ageGroup" with JStr s => s | _ => "" end;
     agreeToGuidelines :=
       match prop v "agreeToGuidelines" with JBool b => b | _ => false end |}.

(** *** The shared store *)

Record store := {
  waitingUsers : list WaitingUser;
  chatPairs : gmap string string;
  reportedUsers : gset string;
  videoChatPairs : gmap string string
}.

Definition initial : store :=
  {| waitingUsers := []; chatPairs := ∅; reportedUsers := ∅;
     videoChatPairs := ∅ |}.

Definition set_waitingUsers (w : list WaitingUser) (s : store) : store :=
  {| waitingUsers := w; chatPairs := chatPairs s;
     reportedUsers := reportedUsers s; videoChatPairs := videoChatPairs s |}.

(** *** Matching *)

Definition findCommonTags (user1Tags user2Tags : list string) : list string :=
  List.filter (fun tag => List.existsb (String.eqb tag) user2Tags) user1Tags.

(** [Array.prototype.sort] is the engine's.  With a comparison function
    that is not a consistent order, as the one of [findBestMatch], the
    resulting order is left to the engine; what every engine gives is a
    rearrangement of the array. *)
Class ArraySort := {
  sort_by : ∀ {A : Type}, (A → A → Z) → list A → list A;
  sort_by_perm : ∀ (A : Type) (cmp : A → A → Z) (l : list A),
      sort_by cmp l ≡ₚ l
}.

Fixpoint insert_by {A : Type} (cmp : A → A → Z) (x : A) (l : list A) : list A :=
  match l with
  | [] => [x]
  | y :: rest =>
      if (cmp x y <=? 0)%Z then x :: y :: rest else y :: insert_by cmp x rest
  end.

Definition insertion_sort {A : Type} (cmp : A → A → Z) (l : list A) : list A :=
  foldr (insert_by cmp) [] l.

(** One engine: a stable insertion sort. *)
#[export] Instance insertion_ArraySort : ArraySort.
Proof.
  refine {| sort_by := @insertion_sort |}.
  intros A cmp l. induction l as [|x l IH]; simpl; [reflexivity|].
  rewrite <- IH at 2. generalize (insertion_sort cmp l). clear.
  intros l. induction l as [|y l IH]; simpl; [reflexivity|].
  destruct (cmp x y <=? 0)%Z; [reflexivity|].
  rewrite IH. apply Permutation_swap.
Defined.

(** The objects [findBestMatch] ranks. *)
Record ranked := {
  user : WaitingUser;
  commonTags : list string;
  ageGroupMatch : bool
}.

Definition compare_ranked (a b : ranked) : Z :=
  if negb (length (commonTags b) =? length (commonTags a))%nat
  then (Z.of_nat (length (commonTags b)) - Z.of_nat (length (commonTags a)))%Z
  else if ageGroupMatch b then 1%Z else (-1)%Z.

Section Handlers.
Context {engine : ArraySort}.

Definition findBestMatch (s : store) (user : WaitingUser) : option WaitingUser :=
  if (length (waitingUsers s) =? 0)%nat then None
  else
    let matches :=
      sort_by compare_ranked
        (List.filter (fun m => (0 <? length (commonTags m))%nat)
           (List.map
              (fun waitingUser =>
                 {| user := waitingUser;
                    commonTags :=
                      findCommonTags (tags (preferences user))
                                     (tags (preferences waitingUser));
                    ageGroupMatch :=
                      String.eqb (ageGroup (preferences waitingUser))
                                 (ageGroup (preferences user)) |})
              (List.filter
                 (fun waitingUser =>
                    negb (String.eqb (socketId waitingUser) (socketId user)) &&
                    negb (bool_decide (socketId waitingUser ∈ reportedUsers s)) &&
                    String.eqb (language (preferences waitingUser))
                               (language (preferences user)))
                 (waitingUsers s))))
    in
    match matches with
    | m :: _ => Some (Server.user m)
    | [] => None
    end.

(** *** Events *)

(** What a client sends. *)
Inductive event :=
| FindChat (preferences : jsval) (isVideoChat : bool)
| Offer (target : string) (offer : jsval)
| Answer (target : string) (answer : jsval)
| IceCandidate (target : string) (candidate : jsval)
| Next
| Message (message : string)
| Report (reason : string)
| Disconnect.

(** What the server emits. *)
Inductive emitted :=
| EError (text : string)
| EWaiting
| EChatFound (commonTags : list string) (isVideoChat : bool) (partnerId : string)
| EOffer (offer : jsval) (from : string)
| EAnswer (answer : jsval) (from : string)
| EIceCandidate (candidate : jsval) (from : string)
| EChatEnded
| EFindChat (preferences : UserPreferences) (isVideoChat : bool)
| EMessage (text : string)
| EMessageModerated (original filtered reason : string).

(** An emission with the socket it goes to: [socket.emit(e)] goes to the
    handler's own socket, [io.to(id).emit(e)] to the socket [id]. *)
Definition emission : Type := string * emitted.

(** The result of [Map.prototype.get] used as a condition. *)
Definition truthy_id (o : option string) : bool :=
  match o with
  | Some id => negb (String.eqb id "")
  | None => false
  end.

(** [a || b] *)
Definition js_or (a b : option string) : option string :=
  if truthy_id a then a else b.

(** [chatPairs.get(id) || videoChatPairs.get(id)] *)
Definition partnerOf (s : store) (id : string) : option string :=
  js_or (chatPairs s !! id) (videoChatPairs s !! id).

(** [const i = l.findIndex(u => u.socketId === id); if (i !== -1) l.splice(i, 1)] *)
Fixpoint remove_first (id : string) (l : list WaitingUser) : list WaitingUser :=
  match l with
  | [] => []
  | u :: rest =>
      if String.eqb (socketId u) id then rest else u :: remove_first id rest
  end.

(** The four [delete] calls shared by [next], [report] and [disconnect]. *)
Definition delete_pairs (id partnerId : string) (s : store) : store :=
  {| waitingUsers := waitingUsers s;
     chatPairs := delete partnerId (delete id (chatPairs s));
     reportedUsers := reportedUsers s;
     videoChatPairs := delete partnerId (delete id (videoChatPairs s)) |}.

Definition onFindChat (id : string) (data_preferences : jsval)
    (data_isVideoChat : bool) (s : store) : store * list emission :=
  if negb (validatePreferences data_preferences)
  then (s, [(id, EError "Invalid preferences format")])
  else
    let s1 := set_waitingUsers (remove_first id (waitingUsers s)) s in
    let user := {| socketId := id;
                   preferences := as_preferences data_preferences;
                   isVideoChat := data_isVideoChat |} in
    match findBestMatch s1 user with
    | Some match_ =>
        let waiting := remove_first (socketId match_) (waitingUsers s1) in
        let s2 :=
          if data_isVideoChat
          then {| waitingUsers := waiting;
                  chatPairs := chatPairs s1;
                  reportedUsers := reportedUsers s1;
                  videoChatPairs :=
                    <[socketId match_ := id]>
                      (<[id := socketId match_]> (videoChatPairs s1)) |}
          else {| waitingUsers := waiting;
                  chatPairs :=
                    <[socketId match_ := id]>
                      (<[id := socketId match_]> (chatPairs s1));
                  reportedUsers := reportedUsers s1;
                  videoChatPairs := videoChatPairs s1 |} in
        let commonTags :=
          findCommonTags (tags (preferences user))
                         (tags (preferences match_)) in
        (s2, [(id, EChatFound commonTags data_isVideoChat (socketId match_));
              (socketId match_, EChatFound commonTags data_isVideoChat id)])
    | None =>
        (set_waitingUsers (waitingUsers s1 ++ [user]) s1, [(id, EWaiting)])
    end.

(** How the call of a listener ends: it throws, or it returns and leaves
    a store and its emissions. *)
Inductive listened :=
| Threw
| Returned (result : store * list emission).

(** The [findChat] listener on the argument [data] as the client sent it.
    The first thing it does is to read [data.preferences], which throws a
    [TypeError] when [data] is [null] or [undefined]: nothing is checked
    and nothing is emitted then.  On any other value the read gives
    [undefined] or the field, and the handler above runs;
    [data.isVideoChat], a boolean by the type of the payload, is taken by
    its truth value. *)
Definition findChat_listener (id : string) (data : jsval) (s : store)
    : listened :=
  match data with
  | JUndefined | JNull => Threw
  | _ =>
      Returned (onFindChat id (prop data "preferences")
                  (truthy (prop data "isVideoChat")) s)
  end.

Definition onOffer (id target : string) (offer : jsval) (s : store)
    : store * list emission :=
  let partnerId := videoChatPairs s !! id in
  if bool_decide (partnerId = Some target)
  then (s, [(target, EOffer offer id)]) else (s, []).

Definition onAnswer (id target : string) (answer : jsval) (s : store)
    : store * list emission :=
  let partnerId := videoChatPairs s !! id in
  if bool_decide (partnerId = Some target)
  then (s, [(target, EAnswer answer id)]) else (s, []).

Definition onIceCandidate (id target : string) (candidate : jsval) (s : store)
    : store * list emission :=
  let partnerId := videoChatPairs s !! id in
  if bool_decide (partnerId = Some target)
  then (s, [(target, EIceCandidate candidate id)]) else (s, []).

Definition onNext (id : string) (s : store) : store * list emission :=
  let partnerId := partnerOf s id in
  let '(s1, out1) :=
    match partnerId with
    | Some p =>
        if truthy_id partnerId
        then (delete_pairs id p s, [(p, EChatEnded)]) else (s, [])
    | None => (s, [])
    end in
  match List.find (fun u => String.eqb (socketId u) id) (waitingUsers s1) with
  | Some user =>
      (s1, out1 ++ [(id, EFindChat (preferences user) (isVideoChat user))])
  | None => (s1, out1)
  end.

Definition moderation_reason : string :=
  "Message contained inappropriate language".

Definition onMessage (id : string) (message : string) (s : store)
    : store * list emission :=
  let partnerId := chatPairs s !! id in
  match partnerId with
  | Some p =>
      if truthy_id partnerId
      then
        let filteredMessage := filterMessage message in
        (s,
         (if negb (String.eqb filteredMessage message)
          then [(id, EMessageModerated message filteredMessage
                       moderation_reason)]
          else [])
         ++ [(p, EMessage filteredMessage)])
      else (s, [])
  | None => (s, [])
  end.

Definition onReport (id : string) (reason : string) (s : store)
    : store * list emission :=
  let partnerId := partnerOf s id in
  match partnerId with
  | Some p =>
      if truthy_id partnerId
      then
        let s1 := {| waitingUsers := waitingUsers s;
                     chatPairs := chatPairs s;
                     reportedUsers := {[p]} ∪ reportedUsers s;
                     videoChatPairs := videoChatPairs s |} in
        (delete_pairs id p s1, [(p, EChatEnded)])
      else (s, [])
  | None => (s, [])
  end.

Definition onDisconnect (id : string) (s : store) : store * list emission :=
  let partnerId := partnerOf s id in
  let '(s1, out1) :=
    match partnerId with
    | Some p =>
        if truthy_id partnerId
        then (delete_pairs id p s, [(p, EChatEnded)]) else (s, [])
    | None => (s, [])
    end in
  ({| waitingUsers := remove_first id (waitingUsers s1);
      chatPairs := chatPairs s1;
      reportedUsers := reportedUsers s1 ∖ {[id]};
      videoChatPairs := videoChatPairs s1 |},
   out1).

(** The handler the socket [id] runs on the event [e]. *)
Definition handle (id : string) (e : event) (s : store)
    : store * list emission :=
  match e with
  | FindChat preferences isVideoChat => onFindChat id preferences isVideoChat s
  | Offer target offer => onOffer id target offer s
  | Answer target answer => onAnswer id target answer s
  | IceCandidate target candidate => onIceCandidate id target candidate s
  | Next => onNext id s
  | Message message => onMessage id message s
  | Report reason => onReport id reason s
  | Disconnect => onDisconnect id s
  end.

(** The server handles one event at a time. *)
Definition step (s : store) (ie : string * event) : store :=
  fst (handle (fst ie) (snd ie) s).

Definition run (s : store) (events : list (string * event)) : store :=
  fold_left step events s.

Fixpoint trace (s : store) (events : list (string * event)) : list emission :=
  match events with
  | [] => []
  | ie :: rest =>
      snd (handle (fst ie) (snd ie) s) ++ trace (step s ie) rest
  end.

(** Socket.IO gives every connection a non-empty id; the states the
    server can be in are those a sequence of events from such sockets
    leads to. *)
Inductive reachable : store → Prop :=
| reachable_initial : reachable initial
| reachable_step s id e :
    reachable s → id ≠ "" → reachable (step s (id, e)).

(** The same, when no socket asks for a chat while it has a partner. *)
Inductive orderly : store → Prop :=
| orderly_initial : orderly initial
| orderly_findChat s id preferences isVideoChat :
    orderly s → id ≠ "" →
    chatPairs s !! id = None → videoChatPairs s !! id = None →
    orderly (step s (id, FindChat preferences isVideoChat))
| orderly_other s id e :
    orderly s → id ≠ "" →
    (∀ preferences isVideoChat, e ≠ FindChat preferences isVideoChat) →
    orderly (step s (id, e)).

(** *** The properties the specification names *)

Definition pairing_symmetric (pairs : gmap string string) : Prop :=
  ∀ a b, pairs !! a = Some b → pairs !! b = Some a.

(** Nobody is the partner of two sessions. *)
Definition single_partner (pairs : gmap string string) : Prop :=
  ∀ a b c, pairs !! a = Some c → pairs !! b = Some c → a = b.

Inductive relay_kind := KOffer | KAnswer | KIceCandidate.

Definition relay_event (k : relay_kind) (target : string) (payload : jsval)
    : event :=
  match k with
  | KOffer => Offer target payload
  | KAnswer => Answer target payload
  | KIceCandidate => IceCandidate target payload
  end.

Definition relay_emitted (k : relay_kind) (payload : jsval) (from : string)
    : emitted :=
  match k with
  | KOffer => EOffer payload from
  | KAnswer => EAnswer payload from
  | KIceCandidate => EIceCandidate payload from
  end.

End Handlers.
End Server.

Import Moderation Server.

(** ** Vocabulary of the properties *)

(** No banned word occurs literally in [s]. *)
Definition clean_of (words : list string) (s : list ascii) : Prop :=
  ∀ w, In w words → occurs (list_ascii_of_string w) s = false.

(** Every partner recorded and every waiting user has a non-empty id. *)
Definition ids_ok (s : store) : Prop :=
  (∀ a b, chatPairs s !! a = Some b → b ≠ "") ∧
  (∀ a b, videoChatPairs s !! a = Some b → b ≠ "") ∧
  (∀ u, In u (waitingUsers s) → socketId u ≠ "").

(** The store after the severing part of [next], [report] and
    [disconnect]: either nothing had to be severed, or the pairs of the
    socket and of its resolved partner are deleted. *)
Definition severed (id : string) (s : store) : store :=
  match partnerOf s id with
  | Some p => if truthy_id (Some p) then delete_pairs id p s else s
  | None => s
  end.

(** Nobody but [a] and [p] is concerned by the pairs of [a] and [p]. *)
Definition closed_pair (pairs : gmap string string) (a p : string) : Prop :=
  (pairs !! a = None ∨ pairs !! a = Some p) ∧
  (pairs !! p = None ∨ pairs !! p = Some a).

(** The pairing discipline: both maps are symmetric, a socket is in one
    map at most, and the waiting users are distinct and have no partner. *)
Record well_paired (s : store) : Prop := {
  wp_chat : pairing_symmetric (chatPairs s);
  wp_video : pairing_symmetric (videoChatPairs s);
  wp_exclusive : ∀ a, is_Some (chatPairs s !! a) → videoChatPairs s !! a = None;
  wp_waiting : ∀ u, In u (waitingUsers s) →
      chatPairs s !! socketId u = None ∧ videoChatPairs s !! socketId u = None;
  wp_distinct : NoDup (List.map socketId (waitingUsers s))
}.

(** The sender is sent a moderation notice. *)
Definition notified (id : string) (out : list emission) : Prop :=
  ∃ original filtered reason,
    In (id, EMessageModerated original filtered reason) out.

(** [w] is a waiting user that [findBestMatch] keeps for the requester
    [u]: another socket, not reported, of the same language, with a tag in
    common. *)
Definition eligible (s : store) (u w : WaitingUser) : Prop :=
  In w (waitingUsers s) ∧
  socketId w ≠ socketId u ∧
  (socketId w ∉ reportedUsers s) ∧
  language (preferences w) = language (preferences u) ∧
  findCommonTags (tags (preferences u)) (tags (preferences w)) ≠ [].

Definition set_reportedUsers (r : gset string) (s : store) : store :=
  {| waitingUsers := waitingUsers s; chatPairs := chatPairs s;
     reportedUsers := r; videoChatPairs := videoChatPairs s |}.

(** The ids on the waiting list. *)
Definition waiting_ids (s : store) : list string :=
  List.map socketId (waitingUsers s).

(** ** The client *)

(** The parts of the React client that decide what is sent to the server:
    its copy of the moderation, the tag handlers and the start button of
    the home page, and the connection and send handlers of the chat page.
    State setters are modelled by the new value of the state. *)
Module Client.

(** *** utils/moderation.ts *)

Definition BANNED_WORDS : list string :=
  [ "n1gg"; "n1gger"; "n1gga"; "n1ggas"; "n1ggers";
    "r3tard"; "r3tarded";
    "f4ggot"; "f4g";
    "k1ke";
    "sp1c"; "sp1ck";
    "ch1nk";
    "w3tback";
    "t0welhead";
    "g00k";
    "d1ke";
    "tr4nny";
    "wh0re"; "slut";
    "n4zi"; "n4zis";
    "terrorist"; "terrorism" ].

Definition containsBannedWords (message : string) : bool :=
  let normalizedMessage := normalize (list_ascii_of_string message) in
  List.existsb
    (fun word =>
       let normalizedWord := normalize (list_ascii_of_string word) in
       includes normalizedWord normalizedMessage)
    BANNED_WORDS.

Definition filterMessage (message : string) : string :=
  if negb (containsBannedWords message) then message
  else string_of_list_ascii
         (replaceBanned BANNED_WORDS (list_ascii_of_string message)).

(** *** The home page *)

Record UserPreferences := {
  tags : list string;
  language : string;
  ageGroup : string;
  agreeToGuidelines : bool;
  isVideoChat : bool
}.

Definition initial_preferences : UserPreferences :=
  {| tags := []; language := "English"; ageGroup := "18-24";
     agreeToGuidelines := false; isVideoChat := false |}.

(** [{...prev, tags: t}] *)
Definition set_tags (t : list string) (prev : UserPreferences) : UserPreferences :=
  {| tags := t; language := language prev; ageGroup := ageGroup prev;
     agreeToGuidelines := agreeToGuidelines prev;
     isVideoChat := isVideoChat prev |}.

(** [tags.includes(tag)] *)
Definition includes_tag (tag : string) (tags : list string) : bool :=
  List.existsb (String.eqb tag) tags.

(** [tags.filter(t => t !== tag)] *)
Definition without_tag (tag : string) (tags : list string) : list string :=
  List.filter (fun t => negb (String.eqb t tag)) tags.

Definition toggleTag (tag : string) (prev : UserPreferences) : UserPreferences :=
  set_tags (if includes_tag tag (tags prev)
            then without_tag tag (tags prev)
            else tags prev ++ [tag])
           prev.

(** White space and line terminators, among the code units below 256:
    U+0009..U+000D, U+0020 and U+00A0. *)
Definition is_space (c : ascii) : bool :=
  between 9 13 (code c) || (code c =? 32)%nat || (code c =? 160)%nat.

Fixpoint trimStart (s : list ascii) : list ascii :=
  match s with
  | [] => []
  | c :: rest => if is_space c then trimStart rest else c :: rest
  end.

Definition trimEnd (s : list ascii) : list ascii :=
  rev (trimStart (rev s)).

(** [s.trim()] *)
Definition trim (s : string) : string :=
  string_of_list_ascii (trimEnd (trimStart (list_ascii_of_string s))).

(** The submit handler of the custom tag field; the result is the
    preferences and the content of the field. *)
Definition handleAddCustomTag (customTag : string) (preferences : UserPreferences)
    : UserPreferences * string :=
  if negb (String.eqb (trim customTag) "") &&
     negb (includes_tag (trim customTag) (tags preferences))
  then (set_tags (tags preferences ++ [trim customTag]) preferences, "")
  else (preferences, customTag).

Definition handleRemoveTag (tagToRemove : string) (prev : UserPreferences)
    : UserPreferences :=
  set_tags (without_tag tagToRemove (tags prev)) prev.

(** What the start button needs of the browser: whether
    [navigator.mediaDevices.getUserMedia] exists, and whether the promise
    it returns is fulfilled. *)
Record browser := {
  mediaDevices : bool;
  getUserMedia : bool
}.

(** The start button either alerts, or stores the preferences under
    [chatPreferences] and opens the chat page. *)
Inductive outcome :=
| Alert (text : string)
| Started (chatPreferences : UserPreferences).

Definition handleStartChat (b : browser) (preferences : UserPreferences)
    : outcome :=
  if negb (agreeToGuidelines preferences)
  then Alert "Please read and agree to the chat guidelines before starting."
  else if (length (tags preferences) =? 0)%nat
  then Alert "Please select at least one interest tag."
  else if isVideoChat preferences
  then
    if negb (mediaDevices b)
    then Alert "Your browser does not support video chat. Please use a modern browser or try text chat instead."
    else if getUserMedia b
    then Started preferences
    else Alert "Could not access camera or microphone. Please check your permissions or try text chat instead."
  else Started preferences.

(** *** The chat page *)

(** The stored preferences as the server receives them. *)
Definition to_jsval (preferences : UserPreferences) : jsval :=
  JObj [("tags", JArr (tags preferences));
        ("language", JStr (language preferences));
        ("ageGroup", JStr (ageGroup preferences));
        ("agreeToGuidelines", JBool (agreeToGuidelines preferences));
        ("isVideoChat", JBool (isVideoChat preferences))].

(** What the chat page sends when its socket connects, and again from
    [handleStartNewChat]. *)
Definition onConnect (preferences : UserPreferences) : event :=
  FindChat (to_jsval preferences) (isVideoChat preferences).

Inductive status := waiting | chatting | disconnected | error.

(** A line of the conversation; its time stamp is left out. *)
Record Message := {
  text : string;
  isOwn : bool;
  wasModerated : bool
}.

(** The send handler: what is emitted and what is added to the
    conversation, if anything. *)
Definition sendMessage (inputMessage : string) (socket : bool) (st : status)
    : option (event * Message) :=
  if negb (String.eqb (trim inputMessage) "") && socket &&
     match st with chatting => true | _ => false end
  then
    let filteredMessage := filterMessage inputMessage in
    let wasModerated := negb (String.eqb filteredMessage inputMessage) in
    Some (Server.Message inputMessage,
          {| text := filteredMessage; isOwn := true;
             wasModerated := wasModerated |})
  else None.

End Client.

(** ** Scenarios *)

(** A well-formed [preferences] payload. *)
Definition payload (tags : list string) (language ageGroup : string) : jsval :=
  JObj [("tags", JArr tags); ("language", JStr language);
        ("ageGroup", JStr ageGroup); ("agreeToGuidelines", JBool true)].

Definition music_art : jsval := payload ["Music"; "Art"] "English" "18-24".
Definition art_gaming : jsval := payload ["Art"; "Gaming"] "English" "18-24".

(** [A] waits, [B] asks and is paired with [A], in text mode. *)
Definition text_pair : list (string * event) :=
  [("A", FindChat music_art false); ("B", FindChat art_gaming false)].

(** [A] and [B] are paired and [C], who shares tags with [A], waits. *)
Definition third_waits : list (string * event) :=
  text_pair ++ [("C", FindChat music_art false)].

(** ... and [A], still paired with [B], asks again. *)
Definition asks_while_paired : list (string * event) :=
  third_waits ++ [("A", FindChat music_art false)].

(** [B] waits for a video chat. *)
Definition video_waits : list (string * event) :=
  [("B", FindChat music_art true)].

(** [A] is paired with [X] for text and, having asked again, with [B] for
    video. *)
Definition two_partners : list (string * event) :=
  [("A", FindChat music_art false); ("X", FindChat music_art false);
   ("B", FindChat music_art true); ("A", FindChat music_art true)].


(** After [A] reported [B], [B] asks again and then [C] asks. *)
Definition after_report : list (string * event) :=
  [("B", FindChat art_gaming false); ("C", FindChat music_art false)].

(** * Properties *)

(** * Moderation: what one replacement pass leaves behind *)

Section CharFacts.

Lemma in_all_ascii (c : ascii) : In c all_ascii.
Proof.
  unfold all_ascii. apply in_map_iff. exists (nat_of_ascii c). split.
  - apply ascii_nat_embedding.
  - apply in_seq. pose proof (nat_ascii_bounded c). lia.
Qed.

Lemma fold_lower_table :
  forallb (fun p => forallb (fun c =>
     implb (is_az09 p && same_fold p c)
           (Ascii.eqb (toLowerCase_char c) p)) all_ascii) all_ascii = true.
Proof. vm_compute. reflexivity. Qed.

(** A character that folds to a character of [a-z0-9] lower-cases to it. *)
Lemma same_fold_lower (p c : ascii) :
  is_az09 p = true → same_fold p c = true → toLowerCase_char c = p.
Proof.
  intros Hp Hf. pose proof fold_lower_table as T.
  rewrite forallb_forall in T. specialize (T p (in_all_ascii p)).
  rewrite forallb_forall in T. specialize (T c (in_all_ascii c)).
  rewrite Hp, Hf in T. simpl in T. by apply Ascii.eqb_eq.
Qed.

Lemma same_fold_star (p : ascii) :
  is_az09 p = true → same_fold p "*"%char = false.
Proof.
  intros Hp. destruct (same_fold p "*"%char) eqn:E; [|done].
  apply (same_fold_lower _ _ Hp) in E. subst p. done.
Qed.

End CharFacts.

Section ReplaceFacts.

Lemma matches_at_stars (v l : list ascii) :
  forallb is_az09 v = true → matches_at v ("*"%char :: l) = true → v = [].
Proof.
  destruct v as [|a v]; [done|]. simpl. intros Hv.
  apply andb_prop in Hv as [Ha _]. by rewrite (same_fold_star _ Ha).
Qed.

Lemma occurs_nil (s : list ascii) : occurs [] s = true.
Proof. by destruct s. Qed.

Lemma occurs_cons (v : list ascii) (c : ascii) (s : list ascii) :
  occurs v s = true → occurs v (c :: s) = true.
Proof. intros E. simpl. rewrite E. apply orb_true_r. Qed.

Lemma occurs_drop (v s : list ascii) (k : nat) :
  occurs v (drop k s) = true → occurs v s = true.
Proof.
  revert s. induction k as [|k IH]; intros s; [by rewrite drop_0|].
  destruct s as [|c s]; [done|]. simpl drop. intros E.
  apply occurs_cons. by apply IH.
Qed.

(** What matches at the head of the output matched at the head of the
    input. *)
Lemma replace_gi_matches (w v s : list ascii) (k : nat) :
  forallb is_az09 v = true →
  matches_at v (replace_gi w s k) = true → matches_at v (drop k s) = true.
Proof.
  revert v k. induction s as [|c s IH]; intros v k Hv.
  - simpl. by rewrite drop_nil.
  - destruct k as [|k]; simpl replace_gi.
    + rewrite drop_0. destruct (matches_at w (c :: s)).
      * intros E. apply matches_at_stars in E; [|done]. by subst v.
      * destruct v as [|a v]; [done|]. simpl.
        apply andb_prop in Hv as [_ Hv].
        intros E. apply andb_prop in E as [E1 E2].
        rewrite E1. simpl. specialize (IH v 0%nat Hv E2).
        by rewrite drop_0 in IH.
    + simpl drop. by apply IH.
Qed.

Lemma occurs_stars (v l : list ascii) :
  forallb is_az09 v = true →
  occurs v (stars ++ l) = true → occurs v l = true.
Proof.
  intros Hv. destruct v as [|a v]; [intros _; apply occurs_nil|].
  apply andb_prop in Hv as [Ha _].
  change (stars ++ l) with ("*"%char :: "*"%char :: "*"%char :: l).
  cbn [occurs matches_at]. rewrite (same_fold_star _ Ha). simpl.
  destruct l; simpl; done.
Qed.

(** A replacement creates no occurrence of a plain word. *)
Lemma replace_gi_occurs (w v s : list ascii) (k : nat) :
  forallb is_az09 v = true →
  occurs v (replace_gi w s k) = true → occurs v (drop k s) = true.
Proof.
  intros Hv. revert k. induction s as [|c s IH]; intros k.
  - simpl. by rewrite drop_nil.
  - destruct k as [|k]; simpl replace_gi.
    + rewrite drop_0. destruct (matches_at w (c :: s)) eqn:M.
      * intros E. apply occurs_stars in E; [|done].
        apply IH in E. apply occurs_cons. by eapply occurs_drop.
      * intros E. cbn [occurs] in E. apply orb_prop in E as [E|E].
        -- pose proof (replace_gi_matches w v (c :: s) 0 Hv) as D.
           simpl replace_gi in D. rewrite M in D. specialize (D E).
           rewrite drop_0 in D. cbn [occurs]. by rewrite D.
        -- apply occurs_cons. specialize (IH 0%nat E).
           by rewrite drop_0 in IH.
    + simpl drop. apply IH.
Qed.

(** A replacement removes every occurrence of its own word. *)
Lemma replace_gi_removes (w s : list ascii) (k : nat) :
  plain_word w = true → occurs w (replace_gi w s k) = false.
Proof.
  intros Hw. apply andb_prop in Hw as [Hn Hw].
  assert (Hnil : matches_at w [] = false) by (by destruct w).
  revert k. induction s as [|c s IH]; intros k.
  - simpl. by rewrite Hnil.
  - destruct k as [|k]; simpl replace_gi; [|apply IH].
    destruct (matches_at w (c :: s)) eqn:M.
    + apply not_true_is_false. intros E.
      apply occurs_stars in E; [|done]. by rewrite IH in E.
    + cbn [occurs]. rewrite IH, orb_false_r.
      apply not_true_is_false. intros E.
      pose proof (replace_gi_matches w w (c :: s) 0 Hw) as D.
      simpl replace_gi in D. rewrite M in D. specialize (D E).
      rewrite drop_0 in D. congruence.
Qed.

(** Without an occurrence a replacement changes nothing. *)
Lemma replace_gi_id (w s : list ascii) :
  occurs w s = false → replace_gi w s 0 = s.
Proof.
  induction s as [|c s IH]; [done|]. cbn [occurs]. intros E.
  apply orb_false_elim in E as [E1 E2]. simpl replace_gi.
  rewrite E1. by rewrite IH.
Qed.

Lemma replaceBanned_id (words : list string) (s : list ascii) :
  clean_of words s → replaceBanned words s = s.
Proof.
  induction words as [|w words IH]; intros Hc; [done|].
  unfold replaceBanned. simpl. rewrite replace_gi_id.
  - apply IH. intros v Hv. apply Hc. by right.
  - apply Hc. by left.
Qed.

Lemma replaceBanned_keeps_clean (words : list string) (v s : list ascii) :
  forallb is_az09 v = true →
  occurs v s = false → occurs v (replaceBanned words s) = false.
Proof.
  intros Hv. revert s. induction words as [|w words IH]; intros s E; [done|].
  unfold replaceBanned. simpl. apply IH.
  apply not_true_is_false. intros O.
  apply replace_gi_occurs in O; [|done]. rewrite drop_0 in O. congruence.
Qed.

Lemma replaceBanned_clean (words : list string) (s : list ascii) :
  forallb (fun w => plain_word (list_ascii_of_string w)) words = true →
  clean_of words (replaceBanned words s).
Proof.
  revert s. induction words as [|w words IH]; intros s Hp v Hv; [done|].
  simpl in Hp. apply andb_prop in Hp as [Hw Hp].
  unfold replaceBanned. simpl. destruct Hv as [->|Hv].
  - apply replaceBanned_keeps_clean.
    + by apply andb_prop in Hw as [_ Hw].
    + by apply replace_gi_removes.
  - by apply IH.
Qed.

Lemma BANNED_WORDS_plain :
  forallb (fun w => plain_word (list_ascii_of_string w)) BANNED_WORDS = true.
Proof. vm_compute. reflexivity. Qed.

End ReplaceFacts.

Section NormalizeFacts.

Lemma is_az09_lower (p : ascii) : is_az09 p = true → toLowerCase_char p = p.
Proof.
  intros Hp. apply same_fold_lower; [done|].
  unfold same_fold. apply Ascii.eqb_refl.
Qed.

Lemma normalize_plain (w : list ascii) :
  forallb is_az09 w = true → normalize w = w.
Proof.
  unfold normalize. induction w as [|p w IH]; [done|]. simpl.
  intros Hw. apply andb_prop in Hw as [Hp Hw].
  rewrite (is_az09_lower _ Hp), Hp. by rewrite IH.
Qed.

Lemma includes_cons (n h : list ascii) (x : ascii) :
  includes n h = true → includes n (x :: h) = true.
Proof. intros E. simpl. rewrite E. apply orb_true_r. Qed.

Lemma startsWith_includes (n h : list ascii) :
  startsWith n h = true → includes n h = true.
Proof. intros E. destruct h; simpl in *; by rewrite E. Qed.

Lemma includes_normalize_cons (n s : list ascii) (c : ascii) :
  includes n (normalize s) = true → includes n (normalize (c :: s)) = true.
Proof.
  unfold normalize. simpl. destruct (is_az09 (toLowerCase_char c)); [|done].
  apply includes_cons.
Qed.

Lemma matches_at_startsWith (w s : list ascii) :
  forallb is_az09 w = true →
  matches_at w s = true → startsWith w (normalize s) = true.
Proof.
  revert s. induction w as [|p w IH]; intros s Hw; [done|].
  simpl in Hw. apply andb_prop in Hw as [Hp Hw].
  destruct s as [|c s]; [done|]. simpl. intros E.
  apply andb_prop in E as [E1 E2].
  unfold normalize. simpl. rewrite (same_fold_lower _ _ Hp E1), Hp. simpl.
  rewrite Ascii.eqb_refl. simpl. by apply IH.
Qed.

(** What the regular expression finds, the detector finds. *)
Lemma occurs_includes (w s : list ascii) :
  forallb is_az09 w = true →
  occurs w s = true → includes (normalize w) (normalize s) = true.
Proof.
  intros Hw. rewrite (normalize_plain _ Hw).
  induction s as [|c s IH]; cbn [occurs].
  - rewrite orb_false_r. intros E.
    apply startsWith_includes. by apply (matches_at_startsWith w []).
  - intros E. apply orb_prop in E as [E|E].
    + apply startsWith_includes. by apply matches_at_startsWith.
    + apply includes_normalize_cons. by apply IH.
Qed.

Lemma not_contains_clean (m : string) :
  containsBannedWords m = false →
  clean_of BANNED_WORDS (list_ascii_of_string m).
Proof.
  unfold containsBannedWords. intros E w Hw.
  apply not_true_is_false. intros O.
  assert (Hp : forallb is_az09 (list_ascii_of_string w) = true).
  { pose proof BANNED_WORDS_plain as P. rewrite forallb_forall in P.
    specialize (P w Hw). by apply andb_prop in P as [_ P]. }
  apply (occurs_includes _ _ Hp) in O.
  assert (X : existsb (fun word =>
             includes (normalize (list_ascii_of_string word))
                      (normalize (list_ascii_of_string m))) BANNED_WORDS = true).
  { apply existsb_exists. by exists w. }
  congruence.
Qed.

Lemma filterMessage_clean (m : string) :
  clean_of BANNED_WORDS (list_ascii_of_string m) → filterMessage m = m.
Proof.
  intros Hc. unfold filterMessage.
  destruct (containsBannedWords m); [|done]. cbn [negb].
  rewrite (replaceBanned_id _ _ Hc). apply string_of_list_ascii_of_string.
Qed.

Lemma filterMessage_output_clean (m : string) :
  clean_of BANNED_WORDS (list_ascii_of_string (filterMessage m)).
Proof.
  unfold filterMessage. destruct (containsBannedWords m) eqn:E; cbn [negb].
  - rewrite list_ascii_of_string_of_list_ascii.
    apply replaceBanned_clean, BANNED_WORDS_plain.
  - by apply not_contains_clean.
Qed.

(** The sender is told exactly when the replacement pass changed the
    text. *)
Lemma wasModified_replaceBanned (m : string) :
  wasModified m = true ↔
  replaceBanned BANNED_WORDS (list_ascii_of_string m) ≠ list_ascii_of_string m.
Proof.
  unfold wasModified. rewrite negb_true_iff, String.eqb_neq.
  unfold filterMessage. destruct (containsBannedWords m) eqn:E; cbn [negb].
  - split; intros N Q; apply N.
    + by rewrite Q, string_of_list_ascii_of_string.
    + apply (f_equal list_ascii_of_string) in Q.
      by rewrite list_ascii_of_string_of_list_ascii in Q.
  - rewrite (replaceBanned_id _ _ (not_contains_clean _ E)). tauto.
Qed.

End NormalizeFacts.

(** ** Moderation idempotence *)

(** C8. A message in which [containsBannedWords] finds nothing is returned
    unchanged by [filterMessage] and is not reported as modified; and for
    every message, filtering the filtered text gives the filtered text. *)
Theorem filterMessage_idempotent (m : string) :
  (containsBannedWords m = false →
   filterMessage m = m ∧ wasModified m = false) ∧
  filterMessage (filterMessage m) = filterMessage m.
Proof.
  split.
  - intros E. unfold wasModified, filterMessage. rewrite E. simpl.
    by rewrite String.eqb_refl.
  - apply filterMessage_clean, filterMessage_output_clean.
Qed.

Lemma filterMessage_idempotent_witness :
  (filterMessage "hello, how are you?" = "hello, how are you?" ∧
   wasModified "hello, how are you?" = false) ∧
  filterMessage (filterMessage "you idiot wh0re") = "you idiot ***".
Proof.
  split.
  - apply (proj1 (filterMessage_idempotent "hello, how are you?")).
    vm_compute. reflexivity.
  - rewrite (proj2 (filterMessage_idempotent "you idiot wh0re")).
    vm_compute. reflexivity.
Defined.

(** * The matchmaker *)

Section Matchmaker.
Context {engine : ArraySort}.

Lemma sort_by_In {A : Type} (cmp : A → A → Z) (l : list A) (x : A) :
  In x (sort_by cmp l) → In x l.
Proof.
  intros Hx. apply list_elem_of_In. rewrite <- (sort_by_perm A cmp l).
  by apply list_elem_of_In.
Qed.

Lemma findCommonTags_In (t1 t2 : list string) (x : string) :
  In x (findCommonTags t1 t2) ↔ In x t1 ∧ In x t2.
Proof.
  unfold findCommonTags. rewrite filter_In, existsb_exists. split.
  - intros [H1 (y & Hy & E)]. apply String.eqb_eq in E. by subst y.
  - intros [H1 H2]. split; [done|]. exists x. split; [done|].
    apply String.eqb_refl.
Qed.

(** Whoever [findBestMatch] returns is waiting, is another socket, is not
    reported, speaks the requester's language and shares a tag with the
    requester. *)
Lemma findBestMatch_sound (s : store) (u m : WaitingUser) :
  findBestMatch s u = Some m →
  In m (waitingUsers s) ∧
  socketId m ≠ socketId u ∧
  (socketId m ∉ reportedUsers s) ∧
  language (preferences m) = language (preferences u) ∧
  findCommonTags (tags (preferences u)) (tags (preferences m)) ≠ [].
Proof.
  unfold findBestMatch. destruct (length (waitingUsers s) =? 0)%nat; [done|].
  match goal with
  | |- context [sort_by ?c ?l] => destruct (sort_by c l) as [|r rs] eqn:E
  end; [done|].
  intros [= <-].
  assert (Hr : In r (r :: rs)) by (by left).
  rewrite <- E in Hr. apply sort_by_In in Hr.
  apply filter_In in Hr as [Hr Htags].
  apply in_map_iff in Hr as (w & <- & Hw). simpl in *.
  apply filter_In in Hw as [Hw Hc].
  apply andb_prop in Hc as [Hc Hlang]. apply andb_prop in Hc as [Hid Hrep].
  apply negb_true_iff in Hid, Hrep.
  apply String.eqb_neq in Hid. apply bool_decide_eq_false in Hrep.
  apply String.eqb_eq in Hlang.
  repeat split; try done.
  intros Hnil. rewrite Hnil in Htags. done.
Qed.

End Matchmaker.

(** C1. [findBestMatch] does not look at [isVideoChat]: with the video
    user [B] waiting, the text requester [A], who has the language and the
    tags of [B], gets [B]; the [findChat] handler then announces a text
    chat to both. *)
Theorem findBestMatch_ignores_chatMode :
  let s := run initial video_waits in
  let requester := {| socketId := "A";
                      preferences := as_preferences music_art;
                      isVideoChat := false |} in
  (∃ m, findBestMatch s requester = Some m ∧
        socketId m = "B" ∧ isVideoChat m = true ∧
        isVideoChat m ≠ isVideoChat requester) ∧
  snd (handle "A" (FindChat music_art false) s)
  = [("A", EChatFound ["Music"; "Art"] false "B");
     ("B", EChatFound ["Music"; "Art"] false "A")].
Proof.
  split; [|by vm_compute].
  eexists. split; [by vm_compute|]. simpl. repeat split. discriminate.
Qed.

(** * Handlers that leave the store alone *)

Section Stateless.
Context {engine : ArraySort}.

(** C6. A relay event from [A] for the target [C] leaves the store as it
    is; when [C] is the partner of [A] in [videoChatPairs] it emits the
    payload to [C], with [A] as its origin, and nothing else; otherwise it
    emits nothing. *)
Theorem relay_authorization (s : store) (k : relay_kind) (A C : string)
    (payload : jsval) :
  fst (handle A (relay_event k C payload) s) = s ∧
  ((videoChatPairs s !! A = Some C ∧
    snd (handle A (relay_event k C payload) s)
    = [(C, relay_emitted k payload A)]) ∨
   (videoChatPairs s !! A ≠ Some C ∧
    snd (handle A (relay_event k C payload) s) = [])).
Proof.
  destruct k; simpl; unfold onOffer, onAnswer, onIceCandidate;
    case_bool_decide; simpl; (split; [done|]); tauto.
Qed.



End Stateless.



(** * Ids in the store *)

Section Ids.
Context {engine : ArraySort}.

Lemma remove_first_In (id : string) (l : list WaitingUser) (u : WaitingUser) :
  In u (remove_first id l) → In u l.
Proof.
  induction l as [|x l IH]; [done|]. simpl.
  destruct (String.eqb (socketId x) id); [by right|].
  intros [->|Hu]; [by left|]. right. by apply IH.
Qed.

Lemma lookup_delete_pair (m : gmap string string) (a p x y : string) :
  delete p (delete a m) !! x = Some y ↔ m !! x = Some y ∧ x ≠ a ∧ x ≠ p.
Proof. rewrite !lookup_delete_Some. intuition congruence. Qed.

Lemma lookup_insert_pair (m : gmap string string) (a b x y : string) :
  <[b:=a]> (<[a:=b]> m) !! x = Some y ↔
  (x = b ∧ y = a) ∨ (x ≠ b ∧ x = a ∧ y = b) ∨
  (x ≠ b ∧ x ≠ a ∧ m !! x = Some y).
Proof. rewrite !lookup_insert_Some. intuition congruence. Qed.

Lemma truthy_id_Some (p : string) : truthy_id (Some p) = true ↔ p ≠ "".
Proof. simpl. by rewrite negb_true_iff, String.eqb_neq. Qed.

Lemma onNext_store (id : string) (s : store) :
  fst (onNext id s) = severed id s.
Proof.
  unfold onNext, severed. destruct (partnerOf s id) as [p|] eqn:E.
  - destruct (truthy_id (Some p)); by destruct (find _ _).
  - by destruct (find _ _).
Qed.

Lemma onReport_store (id reason : string) (s : store) :
  chatPairs (fst (onReport id reason s)) = chatPairs (severed id s) ∧
  videoChatPairs (fst (onReport id reason s)) = videoChatPairs (severed id s) ∧
  waitingUsers (fst (onReport id reason s)) = waitingUsers s.
Proof.
  unfold onReport, severed. destruct (partnerOf s id) as [p|] eqn:E; [|done].
  by destruct (truthy_id (Some p)).
Qed.

Lemma onDisconnect_store (id : string) (s : store) :
  chatPairs (fst (onDisconnect id s)) = chatPairs (severed id s) ∧
  videoChatPairs (fst (onDisconnect id s)) = videoChatPairs (severed id s) ∧
  waitingUsers (fst (onDisconnect id s)) = remove_first id (waitingUsers s).
Proof.
  unfold onDisconnect, severed. destruct (partnerOf s id) as [p|] eqn:E; [|done].
  by destruct (truthy_id (Some p)).
Qed.

Lemma severed_waitingUsers (id : string) (s : store) :
  waitingUsers (severed id s) = waitingUsers s.
Proof.
  unfold severed. destruct (partnerOf s id) as [p|]; [|done].
  by destruct (truthy_id (Some p)).
Qed.

Lemma severed_lookup (id : string) (s : store) (x y : string) :
  (chatPairs (severed id s) !! x = Some y → chatPairs s !! x = Some y) ∧
  (videoChatPairs (severed id s) !! x = Some y →
   videoChatPairs s !! x = Some y).
Proof.
  unfold severed. destruct (partnerOf s id) as [p|]; [|done].
  destruct (truthy_id (Some p)); [|done]. simpl.
  rewrite !lookup_delete_pair. tauto.
Qed.

Lemma ids_ok_step (s : store) (id : string) (e : event) :
  id ≠ "" → ids_ok s → ids_ok (step s (id, e)).
Proof.
  intros Hid (Hc & Hv & Hw). unfold step. simpl fst. simpl snd.
  destruct e as [p v|t o|t o|t o| |m|reason| ]; simpl handle.
  - (* findChat *)
    unfold onFindChat. destruct (validatePreferences _); [|done]. simpl.
    match goal with
    | |- context [findBestMatch ?s1 ?u] =>
        destruct (findBestMatch s1 u) as [m|] eqn:E
    end.
    + apply findBestMatch_sound in E as (Hm & _). simpl in Hm.
      apply remove_first_In in Hm. pose proof (Hw _ Hm) as Hmid.
      destruct v; simpl; (split; [|split]); simpl;
        try done; intros *; rewrite ?lookup_insert_pair;
        try (intros Hu; do 2 apply remove_first_In in Hu; by apply Hw);
        intuition (subst; eauto).
    + simpl. split; [done|]. split; [done|]. simpl. intros u Hu.
      apply in_app_or in Hu as [Hu|[<-|[]]]; [|done].
      apply remove_first_In in Hu. by apply Hw.
  - unfold onOffer. by case_bool_decide.
  - unfold onAnswer. by case_bool_decide.
  - unfold onIceCandidate. by case_bool_decide.
  - rewrite onNext_store. split; [|split].
    + intros a b Hab. apply severed_lookup in Hab. eauto.
    + intros a b Hab. apply severed_lookup in Hab. eauto.
    + rewrite severed_waitingUsers. done.
  - unfold onMessage. destruct (chatPairs s !! id); [|done].
    by destruct (truthy_id _).
  - destruct (onReport_store id reason s) as (E1 & E2 & E3).
    split; [|split]; rewrite ?E1, ?E2, ?E3; try done.
    + intros a b Hab. apply severed_lookup in Hab. eauto.
    + intros a b Hab. apply severed_lookup in Hab. eauto.
  - destruct (onDisconnect_store id s) as (E1 & E2 & E3).
    split; [|split]; rewrite ?E1, ?E2, ?E3.
    + intros a b Hab. apply severed_lookup in Hab. eauto.
    + intros a b Hab. apply severed_lookup in Hab. eauto.
    + intros u Hu. apply remove_first_In in Hu. by apply Hw.
Qed.

Lemma reachable_ids_ok (s : store) : reachable s → ids_ok s.
Proof.
  induction 1 as [|s id e _ IH Hid].
  - split; [|split]; intros *; simpl; try done; by rewrite lookup_empty.
  - by apply ids_ok_step.
Qed.

Lemma orderly_reachable (s : store) : orderly s → reachable s.
Proof. induction 1; by constructor. Qed.

End Ids.

(** * Messages *)

Section Messages.
Context {engine : ArraySort}.

Lemma reachable_run (s : store) (events : list (string * event)) :
  reachable s → Forall (fun ie => fst ie ≠ "") events →
  reachable (run s events).
Proof.
  revert s. induction events as [|[id e] events IH]; intros s Hs Hall; [done|].
  inversion Hall as [|? ? Hid Hrest]; subst. simpl. apply IH; [|done].
  by constructor.
Qed.

Lemma onMessage_paired (s : store) (A P m : string) :
  reachable s → chatPairs s !! A = Some P →
  handle A (Message m) s
  = (s, (if wasModified m
         then [(A, EMessageModerated m (filterMessage m) moderation_reason)]
         else [])
        ++ [(P, EMessage (filterMessage m))]).
Proof.
  intros Hs HP. apply reachable_ids_ok in Hs as (Hc & _).
  simpl. unfold onMessage. rewrite HP.
  by rewrite (proj2 (truthy_id_Some P) (Hc _ _ HP)).
Qed.

(** C7. A [message] event leaves the store as it is.  When the sender has
    a partner in [chatPairs], the partner is sent the filtered text, and
    the sender is sent [messageModerated] exactly when the filter changed
    the text; nothing else is emitted.  When the sender has no partner in
    [chatPairs], nothing is emitted. *)
Theorem message_delivery (s : store) (A m : string) :
  reachable s →
  fst (handle A (Message m) s) = s ∧
  (∀ P, chatPairs s !! A = Some P →
        snd (handle A (Message m) s)
        = (if wasModified m
           then [(A, EMessageModerated m (filterMessage m) moderation_reason)]
           else [])
          ++ [(P, EMessage (filterMessage m))]) ∧
  (chatPairs s !! A = None → snd (handle A (Message m) s) = []).
Proof.
  intros Hs. split; [|split].
  - destruct (chatPairs s !! A) as [P|] eqn:E.
    + by rewrite (onMessage_paired s A P m Hs E).
    + simpl. unfold onMessage. by rewrite E.
  - intros P E. by rewrite (onMessage_paired s A P m Hs E).
  - intros E. simpl. unfold onMessage. by rewrite E.
Qed.

Lemma clean_of_forallb (words : list string) (s : list ascii) :
  forallb (fun w => negb (occurs (list_ascii_of_string w) s)) words = true →
  clean_of words s.
Proof.
  intros F w Hw. rewrite forallb_forall in F.
  apply negb_true_iff. by apply F.
Qed.

(** C10. The sender of a message is sent [messageModerated] exactly when
    the literal replacement of the banned words changed the text.  So a
    message in which [containsBannedWords] finds a banned word, but in
    which none occurs literally, goes to the partner as it was written and
    nobody is sent a moderation notice; "s-l-u-t" is such a message. *)
Theorem moderation_notice_literal (s : store) (A P m : string) :
  reachable s → chatPairs s !! A = Some P →
  (notified A (snd (handle A (Message m) s)) ↔
   replaceBanned BANNED_WORDS (list_ascii_of_string m) ≠ list_ascii_of_string m) ∧
  (containsBannedWords m = true →
   clean_of BANNED_WORDS (list_ascii_of_string m) →
   filterMessage m = m ∧ snd (handle A (Message m) s) = [(P, EMessage m)]) ∧
  (containsBannedWords "s-l-u-t" = true ∧
   clean_of BANNED_WORDS (list_ascii_of_string "s-l-u-t")).
Proof.
  intros Hs HP. rewrite (onMessage_paired s A P m Hs HP). simpl snd.
  split; [|split].
  - rewrite <- wasModified_replaceBanned. unfold notified.
    destruct (wasModified m); simpl.
    + split; [done|]. intros _. eauto.
    + split; [|done]. intros (o & f & r & [Hin|[]]). discriminate.
  - intros _ Hc. pose proof (filterMessage_clean m Hc) as E.
    split; [done|]. unfold wasModified. rewrite E.
    by rewrite String.eqb_refl.
  - split; [by vm_compute|]. apply clean_of_forallb. by vm_compute.
Qed.

End Messages.

Lemma text_pair_reachable : reachable (run initial text_pair).
Proof.
  apply reachable_run; [constructor|].
  repeat constructor; discriminate.
Qed.

Lemma message_delivery_witness :
  snd (handle "A" (Message "you idiot wh0re") (run initial text_pair))
  = [("A", EMessageModerated "you idiot wh0re" "you idiot ***"
             moderation_reason);
     ("B", EMessage "you idiot ***")].
Proof.
  pose proof (message_delivery (run initial text_pair) "A" "you idiot wh0re"
                text_pair_reachable) as (_ & W & _).
  rewrite (W "B"); by vm_compute.
Defined.

Lemma moderation_notice_literal_witness :
  snd (handle "A" (Message "s-l-u-t") (run initial text_pair))
  = [("B", EMessage "s-l-u-t")].
Proof.
  assert (HP : chatPairs (run initial text_pair) !! "A" = Some "B")
    by (by vm_compute).
  pose proof (moderation_notice_literal (run initial text_pair) "A" "B"
                "s-l-u-t" text_pair_reachable HP) as (_ & W & Hc & Hl).
  exact (proj2 (W Hc Hl)).
Defined.

(** * The pairing discipline *)

Section Pairing.
Context {engine : ArraySort}.

Lemma single_partner_of_symmetric (pairs : gmap string string) :
  pairing_symmetric pairs → single_partner pairs.
Proof.
  intros Hs a b c Ha Hb. apply Hs in Ha, Hb. congruence.
Qed.

Lemma remove_first_distinct (id : string) (l : list WaitingUser) :
  NoDup (List.map socketId l) →
  NoDup (List.map socketId (remove_first id l)) ∧
  ∀ u, In u (remove_first id l) → socketId u ≠ id.
Proof.
  induction l as [|x l IH]; simpl; [by split; [constructor|]|].
  intros Hd. apply NoDup_cons in Hd as [Hx Hd].
  destruct (String.eqb (socketId x) id) eqn:E.
  - apply String.eqb_eq in E. split; [done|]. intros u Hu Eu.
    apply Hx. apply list_elem_of_In, in_map_iff. exists u.
    split; [congruence|done].
  - apply String.eqb_neq in E. destruct (IH Hd) as [IH1 IH2]. split.
    + simpl. apply NoDup_cons. split; [|done]. intros Hin. apply Hx.
      apply list_elem_of_In, in_map_iff in Hin as (u & Eu & Hu).
      apply list_elem_of_In, in_map_iff. exists u. split; [done|].
      by eapply remove_first_In.
    + intros u [<-|Hu]; [done|]. by apply IH2.
Qed.

Lemma symmetric_insert_pair (pairs : gmap string string) (a b : string) :
  pairing_symmetric pairs → a ≠ b →
  pairs !! a = None → pairs !! b = None →
  pairing_symmetric (<[b:=a]> (<[a:=b]> pairs)).
Proof.
  intros Hs Hab Ha Hb x y. rewrite !lookup_insert_pair.
  intros [[-> ->]|[(_ & -> & ->)|(Hxb & Hxa & Hxy)]].
  - right. left. done.
  - left. done.
  - right. right. pose proof (Hs _ _ Hxy) as Hyx.
    repeat split; [congruence..|done].
Qed.

Lemma symmetric_delete_pair (pairs : gmap string string) (a p : string) :
  pairing_symmetric pairs → closed_pair pairs a p →
  pairing_symmetric (delete p (delete a pairs)).
Proof.
  intros Hs [Ha Hp] x y. rewrite !lookup_delete_pair.
  intros (Hxy & Hxa & Hxp). pose proof (Hs _ _ Hxy) as Hyx.
  repeat split; [done| |]; intros ->; destruct Ha, Hp; congruence.
Qed.

Lemma well_paired_initial : well_paired initial.
Proof.
  split; simpl; try done. constructor.
Qed.

(** What [partnerOf] resolves is the partner in one of the maps, and the
    pairs of the two sockets concern nobody else. *)
Lemma partnerOf_closed (s : store) (id p : string) :
  well_paired s → ids_ok s → partnerOf s id = Some p →
  p ≠ "" ∧
  (chatPairs s !! id = Some p ∨ videoChatPairs s !! id = Some p) ∧
  closed_pair (chatPairs s) id p ∧ closed_pair (videoChatPairs s) id p.
Proof.
  intros W (Ic & Iv & _). unfold partnerOf, js_or.
  destruct (chatPairs s !! id) as [q|] eqn:Ec.
  - rewrite (proj2 (truthy_id_Some q) (Ic _ _ Ec)). intros [= ->].
    pose proof (wp_chat s W _ _ Ec) as Ec'.
    pose proof (wp_exclusive s W id (ltac:(eauto))) as Ev.
    pose proof (wp_exclusive s W p (ltac:(eauto))) as Ev'.
    split; [eauto|]. split; [by left|].
    split; split; auto.
  - simpl. intros Ev. pose proof (wp_video s W _ _ Ev) as Ev'.
    split; [eauto|]. split; [by right|].
    assert (chatPairs s !! p = None) as Ec'.
    { destruct (chatPairs s !! p) eqn:E; [|done].
      pose proof (wp_exclusive s W p (ltac:(eauto))). congruence. }
    split; split; auto.
Qed.

Lemma well_paired_severed (s : store) (id : string) :
  well_paired s → ids_ok s → well_paired (severed id s).
Proof.
  intros W I. unfold severed.
  destruct (partnerOf s id) as [p|] eqn:E; [|done].
  destruct (partnerOf_closed s id p W I E) as (Hp & _ & Cc & Cv).
  rewrite (proj2 (truthy_id_Some p) Hp). split; simpl.
  - apply symmetric_delete_pair; [apply W|done].
  - apply symmetric_delete_pair; [apply W|done].
  - intros a [x Hx]. apply lookup_delete_pair in Hx as (Hx & Ha1 & Ha2).
    rewrite !lookup_delete_ne by done. apply W. eauto.
  - intros u Hu. destruct (wp_waiting s W u Hu) as [E1 E2].
    split; apply eq_None_not_Some; intros [x Hx];
      apply lookup_delete_pair in Hx as (Hx & _); congruence.
  - apply W.
Qed.

Lemma well_paired_same_pairs (s s' : store) :
  chatPairs s' = chatPairs s → videoChatPairs s' = videoChatPairs s →
  (∀ u, In u (waitingUsers s') → In u (waitingUsers s)) →
  NoDup (List.map socketId (waitingUsers s')) →
  well_paired s → well_paired s'.
Proof.
  intros Ec Ev Hw Hd W. split; rewrite ?Ec, ?Ev; try apply W; [|done].
  intros u Hu. apply W. by apply Hw.
Qed.

Lemma well_paired_findChat (s : store) (id : string) (preferences : jsval)
    (isVideoChat : bool) :
  chatPairs s !! id = None → videoChatPairs s !! id = None →
  well_paired s → well_paired (step s (id, FindChat preferences isVideoChat)).
Proof.
  intros Gc Gv W. unfold step. simpl. unfold onFindChat.
  destruct (validatePreferences _); [|done]. simpl.
  destruct (remove_first_distinct id _ (wp_distinct s W)) as [D1 D1'].
  match goal with
  | |- context [findBestMatch ?s1 ?u] =>
      destruct (findBestMatch s1 u) as [m|] eqn:E
  end.
  - apply findBestMatch_sound in E as (Hm & Hne & _). simpl in Hm, Hne.
    destruct (remove_first_distinct (socketId m) _ D1) as [D2 D2'].
    destruct (wp_waiting s W m (remove_first_In _ _ _ Hm)) as [Mc Mv].
    assert (Hrest : ∀ u, In u (remove_first (socketId m)
                               (remove_first id (waitingUsers s))) →
              socketId u ≠ socketId m ∧ socketId u ≠ id ∧
              chatPairs s !! socketId u = None ∧
              videoChatPairs s !! socketId u = None).
    { intros u Hu. split; [by apply D2'|].
      apply remove_first_In in Hu. split; [by apply D1'|].
      apply remove_first_In in Hu. by apply W. }
    destruct isVideoChat; split; simpl; try apply W; try done.
    + by apply symmetric_insert_pair; [apply W|..].
    + intros a Ha. rewrite !lookup_insert_ne; [by apply W|..];
        intros <-; destruct Ha as [x Hx]; congruence.
    + intros u Hu. destruct (Hrest u Hu) as (N1 & N2 & N3 & N4).
      split; [done|]. by rewrite !lookup_insert_ne.
    + by apply symmetric_insert_pair; [apply W|..].
    + intros a [x Hx]. apply lookup_insert_pair in Hx
        as [[-> _]|[(_ & -> & _)|(_ & _ & Hx)]]; [done..|].
      apply W. eauto.
    + intros u Hu. destruct (Hrest u Hu) as (N1 & N2 & N3 & N4).
      split; [|done]. by rewrite !lookup_insert_ne.
  - split; simpl; try apply W.
    + intros u Hu. apply in_app_or in Hu as [Hu|[<-|[]]]; [|done].
      apply remove_first_In in Hu. by apply W.
    + rewrite map_app. simpl. apply NoDup_app. split; [done|]. split.
      * intros x Hx Hx'. apply list_elem_of_In in Hx, Hx'.
        destruct Hx' as [<-|[]].
        apply in_map_iff in Hx as (u & Eu & Hu). by apply (D1' u).
      * apply NoDup_singleton.
Qed.

Lemma well_paired_other (s : store) (id : string) (e : event) :
  (∀ preferences isVideoChat, e ≠ FindChat preferences isVideoChat) →
  well_paired s → ids_ok s → well_paired (step s (id, e)).
Proof.
  intros Hne W I. unfold step. simpl fst. simpl snd.
  destruct e as [p v|t o|t o|t o| |m|reason| ]; simpl handle.
  - by destruct (Hne p v).
  - unfold onOffer. by case_bool_decide.
  - unfold onAnswer. by case_bool_decide.
  - unfold onIceCandidate. by case_bool_decide.
  - rewrite onNext_store. by apply well_paired_severed.
  - unfold onMessage. destruct (chatPairs s !! id); [|done].
    by destruct (truthy_id _).
  - destruct (onReport_store id reason s) as (E1 & E2 & E3).
    apply (well_paired_same_pairs (severed id s)); rewrite ?E1, ?E2, ?E3;
      try done.
    + by rewrite severed_waitingUsers.
    + apply W.
    + by apply well_paired_severed.
  - destruct (onDisconnect_store id s) as (E1 & E2 & E3).
    apply (well_paired_same_pairs (severed id s)); rewrite ?E1, ?E2, ?E3;
      try done.
    + rewrite severed_waitingUsers. apply remove_first_In.
    + by apply remove_first_distinct, W.
    + by apply well_paired_severed.
Qed.

Lemma orderly_well_paired (s : store) : orderly s → well_paired s.
Proof.
  induction 1 as [|s id p v Hs IH Hid Gc Gv|s id e Hs IH Hid Hne].
  - apply well_paired_initial.
  - by apply well_paired_findChat.
  - apply well_paired_other; [done..|].
    by apply reachable_ids_ok, orderly_reachable.
Qed.

End Pairing.

Section OrderlyRuns.
Context {engine : ArraySort}.

Lemma orderly_run (s : store) (events : list (string * event)) :
  orderly s →
  (∀ i ie, events !! i = Some ie →
     fst ie ≠ "" ∧
     chatPairs (run s (take i events)) !! fst ie = None ∧
     videoChatPairs (run s (take i events)) !! fst ie = None) →
  orderly (run s events).
Proof.
  revert s. induction events as [|[id e] events IH]; intros s Hs G; [done|].
  simpl. apply IH.
  - destruct (G 0%nat (id, e) eq_refl) as (Hid & Gc & Gv). simpl in *.
    destruct e; try (apply orderly_other; by try done).
    by apply orderly_findChat.
  - intros i ie Hi. apply (G (S i) ie Hi).
Qed.

End OrderlyRuns.

Lemma text_pair_orderly : orderly (run initial text_pair).
Proof.
  apply orderly_run; [constructor|].
  intros [|[|i]] ie; simpl; intros [= <-]; by vm_compute.
Qed.

(** ** Pairing symmetry *)

Section PairingSymmetry.
Context {engine : ArraySort}.

(** C2, as the code has it.  When no socket asks for a chat while it has a
    partner, both pairing maps are symmetric in every state the server
    reaches. *)
Theorem pairing_symmetry_orderly (s : store) :
  orderly s →
  pairing_symmetric (chatPairs s) ∧ pairing_symmetric (videoChatPairs s).
Proof.
  intros Hs. apply orderly_well_paired in Hs. split; apply Hs.
Qed.

End PairingSymmetry.

Lemma pairing_symmetry_orderly_witness :
  pairing_symmetric (chatPairs (run initial text_pair)) ∧
  pairing_symmetric (videoChatPairs (run initial text_pair)).
Proof.
  apply pairing_symmetry_orderly. apply text_pair_orderly.
Defined.

(** C2, as stated, fails: [A] is paired with [B], [C] waits and [A] asks
    again; the server pairs [A] with [C] and [B] is still recorded with
    [A]. *)
Lemma pairing_symmetry_fails :
  reachable (run initial asks_while_paired) ∧
  ¬ pairing_symmetric (chatPairs (run initial asks_while_paired)).
Proof.
  split.
  - apply reachable_run; [constructor|]. repeat constructor; discriminate.
  - intros Hs. specialize (Hs "B" "A"). vm_compute in Hs.
    specialize (Hs eq_refl). discriminate.
Qed.

(** ** No double pairing *)

Section NoDoublePairing.
Context {engine : ArraySort}.

(** C3, as the code has it.  When no socket asks for a chat while it has a
    partner, in every state the server reaches nobody is the partner of
    two sockets and nobody has a partner in both maps.  The server has no
    refusal of a pairing: whenever [findChat] finds a match, both
    directions are recorded in the map of the requested mode. *)
Theorem no_double_pairing_orderly (s : store) :
  (orderly s →
   single_partner (chatPairs s) ∧ single_partner (videoChatPairs s) ∧
   ∀ a, is_Some (chatPairs s !! a) → videoChatPairs s !! a = None) ∧
  (∀ id preferences isVideoChat m,
     validatePreferences preferences = true →
     findBestMatch (set_waitingUsers (remove_first id (waitingUsers s)) s)
       {| socketId := id; preferences := as_preferences preferences;
          isVideoChat := isVideoChat |} = Some m →
     let s' := step s (id, FindChat preferences isVideoChat) in
     let pairs := if isVideoChat then videoChatPairs s' else chatPairs s' in
     pairs !! id = Some (socketId m) ∧ pairs !! socketId m = Some id).
Proof.
  split.
  - intros Hs. apply orderly_well_paired in Hs.
    split; [|split]; try apply single_partner_of_symmetric; apply Hs.
  - intros id p v m Hv Hm. unfold step. simpl. unfold onFindChat.
    rewrite Hv. simpl. rewrite Hm.
    apply findBestMatch_sound in Hm as (_ & Hne & _). simpl in Hne.
    destruct v; simpl; rewrite !lookup_insert_pair; split; auto.
Qed.

End NoDoublePairing.

Lemma no_double_pairing_orderly_witness :
  single_partner (chatPairs (run initial text_pair)) ∧
  single_partner (videoChatPairs (run initial text_pair)) ∧
  ∀ a, is_Some (chatPairs (run initial text_pair) !! a) →
       videoChatPairs (run initial text_pair) !! a = None.
Proof.
  apply (proj1 (no_double_pairing_orderly (run initial text_pair))).
  apply text_pair_orderly.
Defined.

(** C3, as stated, fails: [A] has the partner [B] in [chatPairs] when it
    asks again; nothing is refused, [A] is told of a chat with [C], and
    afterwards both [B] and [C] have [A] as their partner. *)
Lemma no_double_pairing_fails :
  reachable (run initial third_waits) ∧
  chatPairs (run initial third_waits) !! "A" = Some "B" ∧
  In ("A", EChatFound ["Music"; "Art"] false "C")
     (snd (handle "A" (FindChat music_art false) (run initial third_waits))) ∧
  chatPairs (run initial asks_while_paired) !! "A" = Some "C" ∧
  ¬ single_partner (chatPairs (run initial asks_while_paired)).
Proof.
  split; [|split; [|split; [|split]]].
  - apply reachable_run; [constructor|]. repeat constructor; discriminate.
  - by vm_compute.
  - vm_compute. by left.
  - by vm_compute.
  - intros Hs. specialize (Hs "B" "C" "A"). vm_compute in Hs.
    specialize (Hs eq_refl eq_refl). discriminate.
Qed.

(** * Reports *)

Section Reports.
Context {engine : ArraySort}.

Lemma partnerOf_nonempty (s : store) (id p : string) :
  ids_ok s → partnerOf s id = Some p → p ≠ "".
Proof.
  intros (Ic & Iv & _). unfold partnerOf, js_or.
  destruct (truthy_id (chatPairs s !! id)); eauto.
Qed.

Lemma onReport_reported (s : store) (A B reason : string) :
  ids_ok s → partnerOf s A = Some B →
  reportedUsers (step s (A, Report reason)) = {[B]} ∪ reportedUsers s.
Proof.
  intros I E. unfold step. simpl. unfold onReport. rewrite E.
  by rewrite (proj2 (truthy_id_Some B) (partnerOf_nonempty s A B I E)).
Qed.

(** Only the disconnection of a socket takes it off [reportedUsers]. *)
Lemma reported_step (s : store) (B : string) (ie : string * event) :
  ie ≠ (B, Disconnect) → B ∈ reportedUsers s → B ∈ reportedUsers (step s ie).
Proof.
  destruct ie as [id e]. intros Hne HB. unfold step. simpl fst. simpl snd.
  destruct e as [p v|t o|t o|t o| |m|reason| ]; simpl handle.
  - unfold onFindChat. destruct (validatePreferences _); [|done]. simpl.
    match goal with
    | |- context [findBestMatch ?s1 ?u] => destruct (findBestMatch s1 u)
    end; [by destruct v|done].
  - unfold onOffer. by case_bool_decide.
  - unfold onAnswer. by case_bool_decide.
  - unfold onIceCandidate. by case_bool_decide.
  - unfold onNext. destruct (partnerOf s id) as [q|]; simpl.
    + destruct (negb _); simpl; by destruct (find _ _).
    + by destruct (find _ _).
  - unfold onMessage. destruct (chatPairs s !! id); [|done].
    by destruct (truthy_id _).
  - unfold onReport. destruct (partnerOf s id) as [q|]; [|done].
    destruct (truthy_id _); [|done]. simpl. set_solver.
  - unfold onDisconnect. assert (Hid : B ≠ id) by congruence.
    assert (Hkeep : ∀ r : gset string, B ∈ r → B ∈ r ∖ {[id]}).
    { intros r Hr. apply elem_of_difference. split; [done|].
      by rewrite elem_of_singleton. }
    destruct (partnerOf s id) as [q|]; simpl.
    + destruct (negb _); simpl; by apply Hkeep.
    + by apply Hkeep.
Qed.

Lemma reported_run (s : store) (B : string) (events : list (string * event)) :
  Forall (fun ie => ie ≠ (B, Disconnect)) events →
  B ∈ reportedUsers s → B ∈ reportedUsers (run s events).
Proof.
  revert s. induction events as [|ie events IH]; intros s Hall HB; [done|].
  inversion Hall; subst. simpl. apply IH; [done|]. by apply reported_step.
Qed.

Lemma onDisconnect_unreported (s : store) (B : string) :
  B ∉ reportedUsers (step s (B, Disconnect)).
Proof.
  assert (Hgone : ∀ r : gset string, B ∉ r ∖ {[B]}).
  { intros r Hr. apply elem_of_difference in Hr as [_ Hr].
    by apply Hr, elem_of_singleton. }
  unfold step. simpl. unfold onDisconnect.
  destruct (partnerOf s B) as [q|]; simpl.
  - destruct (negb _); simpl; apply Hgone.
  - apply Hgone.
Qed.

(** The report of [A], with [B] the partner that the handler resolves. *)
Lemma block_exclusion_resolved (s : store) (A B reason : string)
    (events : list (string * event)) :
  reachable s → partnerOf s A = Some B →
  Forall (fun ie => ie ≠ (B, Disconnect)) events →
  let s' := run (step s (A, Report reason)) events in
  B ∈ reportedUsers s' ∧
  (∀ u m, findBestMatch s' u = Some m → socketId m ≠ B) ∧
  B ∉ reportedUsers (step s' (B, Disconnect)).
Proof.
  intros Hs HB Hall s'.
  assert (Hin : B ∈ reportedUsers s').
  { apply reported_run; [done|].
    rewrite (onReport_reported s A B reason); [set_solver| |done].
    by apply reachable_ids_ok. }
  split; [done|]. split; [|apply onDisconnect_unreported].
  intros u m Hm Em. apply findBestMatch_sound in Hm as (_ & _ & Hr & _).
  by rewrite Em in Hr.
Qed.

(** The partner of [A] that a report reaches: its partner in [chatPairs],
    or its partner in [videoChatPairs] when [chatPairs] has none for it,
    as is the case of every video partner in the pairing discipline. *)
Lemma partnerOf_paired (s : store) (A B : string) :
  reachable s →
  chatPairs s !! A = Some B ∨
  (videoChatPairs s !! A = Some B ∧ (chatPairs s !! A = None ∨ orderly s)) →
  partnerOf s A = Some B.
Proof.
  intros Hs HP. pose proof (reachable_ids_ok s Hs) as (Ic & _ & _).
  unfold partnerOf, js_or.
  destruct HP as [Ec|[Ev [Ec|Ho]]].
  - rewrite Ec. by rewrite (proj2 (truthy_id_Some B) (Ic _ _ Ec)).
  - by rewrite Ec.
  - destruct (chatPairs s !! A) as [q|] eqn:Ec; [|done].
    pose proof (wp_exclusive s (orderly_well_paired s Ho) A (ltac:(eauto))).
    congruence.
Qed.

(** C5, as the code has it.  Let [A] report while [B] is its partner in
    [chatPairs], or while [B] is its partner in [videoChatPairs] and
    either [A] has no partner in [chatPairs] or no socket has asked for a
    chat while it had a partner.  After the report, and after any further
    events none of which is the disconnection of [B], [B] is in
    [reportedUsers] and [findBestMatch] returns [B] for no requester; the
    disconnection of [B] is what takes it off [reportedUsers]. *)
Theorem block_exclusion (s : store) (A B reason : string)
    (events : list (string * event)) :
  reachable s →
  chatPairs s !! A = Some B ∨
  (videoChatPairs s !! A = Some B ∧ (chatPairs s !! A = None ∨ orderly s)) →
  Forall (fun ie => ie ≠ (B, Disconnect)) events →
  let s' := run (step s (A, Report reason)) events in
  B ∈ reportedUsers s' ∧
  (∀ u m, findBestMatch s' u = Some m → socketId m ≠ B) ∧
  B ∉ reportedUsers (step s' (B, Disconnect)).
Proof.
  intros Hs HP Hall.
  apply block_exclusion_resolved; [done| |done].
  by apply partnerOf_paired.
Qed.

(** X14. [next] from a socket with a partner, in a state of the pairing
    discipline: the partner is sent [chatEnded] once, the pairs of both
    are deleted, and that is all. *)
Lemma next_severs (s : store) (A P : string) :
  orderly s → partnerOf s A = Some P →
  handle A Next s = (delete_pairs A P s, [(P, EChatEnded)]).
Proof.
  intros Hs E. pose proof (orderly_well_paired s Hs) as W.
  pose proof (reachable_ids_ok s (orderly_reachable s Hs)) as I.
  destruct (partnerOf_closed s A P W I E) as (HP & Hpair & _).
  simpl. unfold onNext. rewrite E.
  rewrite (proj2 (truthy_id_Some P) HP). simpl waitingUsers.
  destruct (find _ (waitingUsers s)) as [u|] eqn:F; [|done].
  apply find_some in F as [Hu Eu]. apply String.eqb_eq in Eu.
  destruct (wp_waiting s W u Hu) as [N1 N2]. rewrite Eu in N1, N2.
  destruct Hpair; congruence.
Qed.

End Reports.

Lemma block_exclusion_witness :
  "B" ∈ reportedUsers
          (run (step (run initial text_pair) ("A", Report "abusive")) after_report) ∧
  (∀ u m,
     findBestMatch
       (run (step (run initial text_pair) ("A", Report "abusive")) after_report)
       u = Some m →
     socketId m ≠ "B") ∧
  "B" ∉ reportedUsers
          (step (run (step (run initial text_pair) ("A", Report "abusive"))
                     after_report)
                ("B", Disconnect)).
Proof.
  apply (block_exclusion (run initial text_pair) "A" "B" "abusive" after_report).
  - apply text_pair_reachable.
  - left. by vm_compute.
  - repeat constructor; discriminate.
Defined.

(** C5, as stated, fails: [A] is paired with [X] for text and with [B] for
    video, each way round.  The report of [A] puts [X] on [reportedUsers]
    and not [B]; [B] asks again, waits, and is then the match of [C]. *)
Lemma block_exclusion_fails :
  let s := run initial two_partners in
  let s' := run (step s ("A", Report "abusive"))
                [("B", FindChat music_art true)] in
  reachable s ∧
  videoChatPairs s !! "A" = Some "B" ∧ videoChatPairs s !! "B" = Some "A" ∧
  chatPairs s !! "A" = Some "X" ∧
  ("B" ∉ reportedUsers s') ∧
  ∃ m, findBestMatch s' {| socketId := "C";
                           preferences := as_preferences music_art;
                           isVideoChat := true |} = Some m ∧
       socketId m = "B".
Proof.
  intros s s'. split; [|split; [|split; [|split; [|split]]]].
  - apply reachable_run; [constructor|]. repeat constructor; discriminate.
  - by vm_compute.
  - by vm_compute.
  - by vm_compute.
  - apply (bool_decide_unpack _). by vm_compute.
  - eexists. split; [by vm_compute|reflexivity].
Qed.

(** C4. [A] and [B] are paired and [C], who shares tags with [A], waits.
    On [next] from [A] the server sends [chatEnded] to [B], deletes the
    pairs and stops there: [A] is neither matched nor put on the waiting
    list, and [C] keeps waiting, although a [findChat] from [A] with its
    preferences would pair it with [C]. *)
Theorem next_does_not_rematch :
  let s := run initial third_waits in
  let s' := step s ("A", Next) in
  chatPairs s !! "A" = Some "B" ∧
  snd (handle "A" Next s) = [("B", EChatEnded)] ∧
  chatPairs s' !! "A" = None ∧ videoChatPairs s' !! "A" = None ∧
  List.map socketId (waitingUsers s') = ["C"] ∧
  chatPairs (step s' ("A", FindChat music_art false)) !! "A" = Some "C".
Proof. vm_compute. repeat split; reflexivity. Qed.

(** * The scenarios of the specification *)

Example scenario_common_tags :
  trace initial text_pair
  = [("A", EWaiting);
     ("B", EChatFound ["Art"] false "A");
     ("A", EChatFound ["Art"] false "B")].
Proof. by vm_compute. Qed.

Example scenario_report :
  trace (run initial text_pair) (("A", Report "abusive") :: after_report)
  = [("B", EChatEnded); ("B", EWaiting); ("C", EWaiting)].
Proof. by vm_compute. Qed.

Example scenario_disconnect :
  handle "A" Disconnect (run initial text_pair)
  = (initial, [("B", EChatEnded)]).
Proof. by vm_compute. Qed.

(** * More on the filter *)

Section FilterFacts.

(** X1. What [filterMessage] returns has no banned word in it, in any mix of
    upper and lower case. *)
Theorem filterMessage_leaves_no_banned_word (m : string) :
  forallb (fun w => negb (occurs (list_ascii_of_string w)
                                 (list_ascii_of_string (filterMessage m))))
          BANNED_WORDS = true.
Proof.
  apply forallb_forall. intros w Hw. apply negb_true_iff.
  by apply filterMessage_output_clean.
Qed.

(** X2. A message in which a banned word occurs literally is detected and is
    changed by the filter. *)
Theorem literal_word_is_replaced (m w : string) :
  In w BANNED_WORDS →
  occurs (list_ascii_of_string w) (list_ascii_of_string m) = true →
  containsBannedWords m = true ∧ wasModified m = true.
Proof.
  intros Hw Ho. split.
  - destruct (containsBannedWords m) eqn:E; [done|].
    pose proof (not_contains_clean m E w Hw). congruence.
  - unfold wasModified. apply negb_true_iff, String.eqb_neq. intros E.
    pose proof (filterMessage_output_clean m w Hw) as C.
    rewrite E in C. congruence.
Qed.

Lemma length_list_ascii_of_string (s : string) :
  length (list_ascii_of_string s) = String.length s.
Proof. induction s as [|c s IH]; simpl; congruence. Qed.

Lemma matches_at_length (w s : list ascii) :
  matches_at w s = true → (length w ≤ length s)%nat.
Proof.
  revert s. induction w as [|p w IH]; intros s; simpl; [lia|].
  destruct s as [|c s]; [done|]. intros E.
  apply andb_prop in E as [_ E]. apply IH in E. simpl. lia.
Qed.

Lemma replace_gi_length (w s : list ascii) (k : nat) :
  (3 ≤ length w)%nat →
  (length (replace_gi w s k) ≤ length (drop k s))%nat.
Proof.
  intros Hw. revert k. induction s as [|c s IH]; intros k.
  - by rewrite drop_nil.
  - destruct k as [|k]; simpl replace_gi; [|apply IH].
    rewrite drop_0. destruct (matches_at w (c :: s)) eqn:M.
    + apply matches_at_length in M. simpl in M.
      specialize (IH (length w - 1)%nat).
      rewrite length_drop in IH. simpl. lia.
    + simpl. specialize (IH 0%nat). rewrite drop_0 in IH. lia.
Qed.

Lemma replaceBanned_length (words : list string) (s : list ascii) :
  forallb (fun w => 3 <=? String.length w)%nat words = true →
  (length (replaceBanned words s) ≤ length s)%nat.
Proof.
  revert s. induction words as [|w words IH]; intros s Hl; [done|].
  cbn [forallb] in Hl. apply andb_prop in Hl as [Hw Hl].
  apply Nat.leb_le in Hw.
  unfold replaceBanned. simpl. etransitivity; [by apply IH|].
  pose proof (replace_gi_length (list_ascii_of_string w) s 0) as L.
  rewrite length_list_ascii_of_string, drop_0 in L. by apply L.
Qed.

(** X3. The filter never makes a message longer: every banned word has three
    characters at least, and three stars take its place. *)
Theorem filterMessage_length (m : string) :
  (String.length (filterMessage m) ≤ String.length m)%nat.
Proof.
  unfold filterMessage. destruct (containsBannedWords m); cbn [negb]; [|done].
  rewrite <- !length_list_ascii_of_string.
  rewrite list_ascii_of_string_of_list_ascii.
  apply replaceBanned_length. by vm_compute.
Qed.

End FilterFacts.

Lemma literal_word_is_replaced_witness :
  containsBannedWords "you idiot Wh0Re" = true ∧
  wasModified "you idiot Wh0Re" = true.
Proof.
  apply (literal_word_is_replaced "you idiot Wh0Re" "wh0re").
  - unfold BANNED_WORDS. repeat first [left; reflexivity | right].
  - by vm_compute.
Defined.

(** * More on the matchmaker *)

Section MatchmakerFacts.
Context {engine : ArraySort}.

(** X4. [findCommonTags] keeps, in their order, the tags of the first list
    that are in the second. *)
Theorem findCommonTags_intersection (t1 t2 : list string) :
  sublist (findCommonTags t1 t2) t1 ∧
  (∀ x, In x (findCommonTags t1 t2) ↔ In x t1 ∧ In x t2) ∧
  (findCommonTags t1 t2 = [] ↔ ∀ x, In x t1 → ¬ In x t2).
Proof.
  split; [|split].
  - unfold findCommonTags. induction t1 as [|x t1 IH]; simpl; [done|].
    destruct (existsb _ t2); by constructor.
  - apply findCommonTags_In.
  - split.
    + intros E x H1 H2.
      assert (Hx : In x (findCommonTags t1 t2)) by (by apply findCommonTags_In).
      by rewrite E in Hx.
    + intros D. destruct (findCommonTags t1 t2) as [|x l] eqn:E; [done|].
      assert (Hx : In x (findCommonTags t1 t2)) by (rewrite E; by left).
      apply findCommonTags_In in Hx as [H1 H2]. by destruct (D x H1).
Qed.

Lemma sort_by_nil {A : Type} (cmp : A → A → Z) (l : list A) :
  sort_by cmp l = [] → l = [].
Proof.
  intros E. pose proof (sort_by_perm A cmp l) as P. rewrite E in P.
  by apply Permutation_nil_l in P.
Qed.

(** X5. [findBestMatch] answers [null] exactly when no waiting user is
    eligible for the requester. *)
Theorem findBestMatch_complete (s : store) (u : WaitingUser) :
  findBestMatch s u = None ↔ ∀ w, ¬ eligible s u w.
Proof.
  split.
  - intros E w (Hw & Hid & Hrep & Hlang & Htags).
    unfold findBestMatch in E.
    destruct (length (waitingUsers s) =? 0)%nat eqn:L.
    { apply Nat.eqb_eq in L. destruct (waitingUsers s); [done|discriminate]. }
    match type of E with
    | context [sort_by ?c ?l] => destruct (sort_by c l) as [|r rs] eqn:S
    end; [|done].
    apply sort_by_nil in S.
    match type of S with
    | List.filter ?f (List.map ?g ?l) = [] =>
        assert (X : In (g w) (List.filter f (List.map g l)))
    end; [|by rewrite S in X].
    apply filter_In. split.
    + apply in_map_iff. exists w. split; [done|].
      apply filter_In. split; [done|].
      apply andb_true_intro. split; [apply andb_true_intro; split|].
      * by apply negb_true_iff, String.eqb_neq.
      * by apply negb_true_iff, bool_decide_eq_false.
      * by apply String.eqb_eq.
    + simpl. destruct (findCommonTags _ _); [done|]. done.
  - intros N. destruct (findBestMatch s u) as [m|] eqn:E; [|done].
    apply findBestMatch_sound in E. by destruct (N m).
Qed.

Lemma findCommonTags_nil_r (t : list string) : findCommonTags t [] = [].
Proof. unfold findCommonTags. by induction t. Qed.

(** X6. A user without tags finds nobody and is found by nobody. *)
Theorem no_tags_no_match (s : store) (u r : WaitingUser) :
  tags (preferences u) = [] →
  findBestMatch s u = None ∧ findBestMatch s r ≠ Some u.
Proof.
  intros T. split.
  - destruct (findBestMatch s u) as [m|] eqn:E; [|done].
    apply findBestMatch_sound in E as (_ & _ & _ & _ & C).
    by rewrite T in C.
  - intros E. apply findBestMatch_sound in E as (_ & _ & _ & _ & C).
    by rewrite T, findCommonTags_nil_r in C.
Qed.

(** X7. [reportedUsers] is looked up for the waiting users only: a reported
    user who asks for a chat is matched as if it were not reported. *)
Theorem reported_requester_still_matched (s : store) (u : WaitingUser) :
  findBestMatch (set_reportedUsers ({[socketId u]} ∪ reportedUsers s) s) u
  = findBestMatch s u.
Proof.
  unfold findBestMatch. simpl.
  destruct (length (waitingUsers s) =? 0)%nat; [done|].
  match goal with
  | |- match ?X with _ => _ end = match ?Y with _ => _ end =>
      replace X with Y; [done|]
  end.
  do 3 f_equal. apply filter_ext.
  intros w. destruct (String.eqb (socketId w) (socketId u)) eqn:E; [done|].
  apply String.eqb_neq in E. simpl. f_equal. f_equal.
  apply bool_decide_ext. rewrite elem_of_union, elem_of_singleton. tauto.
Qed.

End MatchmakerFacts.

Lemma no_tags_no_match_witness :
  let nobody := {| socketId := "D";
                   preferences := as_preferences (payload [] "English" "18-24");
                   isVideoChat := false |} in
  let asker := {| socketId := "E";
                  preferences := as_preferences music_art;
                  isVideoChat := false |} in
  findBestMatch (run initial third_waits) nobody = None ∧
  findBestMatch (set_waitingUsers [nobody] initial) asker ≠ Some nobody.
Proof.
  intros nobody asker. split.
  - apply (no_tags_no_match (run initial third_waits) nobody asker).
    reflexivity.
  - apply (no_tags_no_match (set_waitingUsers [nobody] initial) nobody asker).
    reflexivity.
Defined.

(** * More on the handlers *)

Section HandlerFacts.
Context {engine : ArraySort}.

Lemma findChat_malformed_again (s : store) (id : string) (p : jsval) (v : bool) :
  isArray (prop p "tags") = false ∨
  typeof_string (prop p "language") = false ∨
  typeof_string (prop p "ageGroup") = false ∨
  typeof_boolean (prop p "agreeToGuidelines") = false →
  handle id (FindChat p v) s = (s, [(id, EError "Invalid preferences format")]).
Proof.
  intros Hbad. simpl. unfold onFindChat.
  replace (validatePreferences p) with false; [done|].
  unfold validatePreferences.
  destruct Hbad as [-> | [-> | [-> | ->]]]; by rewrite ?andb_false_r.
Qed.

Lemma waiting_distinct_step (s : store) (id : string) (e : event) :
  NoDup (waiting_ids s) → NoDup (waiting_ids (step s (id, e))).
Proof.
  unfold waiting_ids. intros D. unfold step. simpl fst. simpl snd.
  destruct e as [p v|t o|t o|t o| |m|reason| ]; simpl handle.
  - unfold onFindChat. destruct (validatePreferences _); [|done]. simpl.
    destruct (remove_first_distinct id _ D) as [D1 D1'].
    match goal with
    | |- context [findBestMatch ?s1 ?u] => destruct (findBestMatch s1 u) as [m|]
    end.
    + destruct v; simpl; by apply remove_first_distinct.
    + simpl. rewrite map_app. apply NoDup_app. split; [done|]. split.
      * intros x Hx Hx'. apply list_elem_of_In in Hx, Hx'.
        destruct Hx' as [<-|[]].
        apply in_map_iff in Hx as (u & Eu & Hu). by apply (D1' u).
      * apply NoDup_singleton.
  - unfold onOffer. by case_bool_decide.
  - unfold onAnswer. by case_bool_decide.
  - unfold onIceCandidate. by case_bool_decide.
  - by rewrite onNext_store, severed_waitingUsers.
  - unfold onMessage. destruct (chatPairs s !! id); [|done].
    by destruct (truthy_id _).
  - destruct (onReport_store id reason s) as (_ & _ & E3). by rewrite E3.
  - destruct (onDisconnect_store id s) as (_ & _ & E3). rewrite E3.
    by apply remove_first_distinct.
Qed.

Lemma reachable_waiting_distinct (s : store) :
  reachable s → NoDup (waiting_ids s).
Proof.
  induction 1 as [|s id e _ IH _]; [constructor|].
  by apply waiting_distinct_step.
Qed.

(** X8. No socket is twice on the waiting list, whatever the clients send. *)
Theorem waiting_distinct (s : store) :
  reachable s → NoDup (List.map socketId (waitingUsers s)).
Proof.
  induction 1 as [|s id e _ IH _]; [constructor|].
  by apply (waiting_distinct_step s id e).
Qed.

(** X9. A [findChat] with well-formed preferences has one of two outcomes.
    Either a user who was waiting is matched: both are told of the chat,
    with the same non-empty common tags, and neither is on the waiting
    list afterwards.  Or the requester is told to wait and is put last on
    the waiting list, and no pair changes.  [reportedUsers] is untouched. *)
Theorem findChat_outcome (s : store) (id : string) (p : jsval) (v : bool) :
  reachable s → validatePreferences p = true →
  let s' := step s (id, FindChat p v) in
  let out := snd (handle id (FindChat p v) s) in
  let user := {| socketId := id; preferences := as_preferences p;
                 isVideoChat := v |} in
  reportedUsers s' = reportedUsers s ∧
  ((∃ m, In m (waitingUsers s) ∧ socketId m ≠ id ∧
         findCommonTags (tags (as_preferences p)) (tags (preferences m)) ≠ [] ∧
         out = [(id, EChatFound
                       (findCommonTags (tags (as_preferences p))
                                       (tags (preferences m)))
                       v (socketId m));
                (socketId m, EChatFound
                       (findCommonTags (tags (as_preferences p))
                                       (tags (preferences m)))
                       v id)] ∧
         ¬ In id (waiting_ids s') ∧ ¬ In (socketId m) (waiting_ids s')) ∨
   (out = [(id, EWaiting)] ∧
    waitingUsers s' = remove_first id (waitingUsers s) ++ [user] ∧
    chatPairs s' = chatPairs s ∧ videoChatPairs s' = videoChatPairs s)).
Proof.
  intros Hs Hv. pose proof (reachable_waiting_distinct s Hs) as D.
  unfold step. simpl. unfold onFindChat. rewrite Hv. simpl.
  destruct (remove_first_distinct id _ D) as [D1 D1'].
  match goal with
  | |- context [findBestMatch ?s1 ?u] =>
      destruct (findBestMatch s1 u) as [m|] eqn:E
  end.
  - apply findBestMatch_sound in E as (Hm & Hne & _ & _ & Ht).
    simpl in Hm, Hne, Ht.
    destruct (remove_first_distinct (socketId m) _ D1) as [D2 D2'].
    assert (Hgone : ∀ x,
              (x = id ∨ x = socketId m) →
              ¬ In x (List.map socketId
                        (remove_first (socketId m)
                           (remove_first id (waitingUsers s))))).
    { intros x Hx Hin. apply in_map_iff in Hin as (u & Eu & Hu).
      destruct Hx as [->| ->].
      - apply remove_first_In in Hu. by apply (D1' u).
      - by apply (D2' u). }
    split; [by destruct v|]. left. exists m.
    split; [by eapply remove_first_In|]. split; [done|]. split; [done|].
    unfold waiting_ids. destruct v; simpl; (split; [done|]); split;
      apply Hgone; auto.
  - simpl. split; [done|]. by right.
Qed.

Lemma partnerOf_None (s : store) (id : string) :
  ids_ok s → partnerOf s id = None →
  chatPairs s !! id = None ∧ videoChatPairs s !! id = None.
Proof.
  intros (Ic & _ & _). unfold partnerOf, js_or.
  destruct (chatPairs s !! id) as [q|] eqn:E; [|done].
  by rewrite (proj2 (truthy_id_Some q) (Ic _ _ E)).
Qed.

Lemma severed_forgets (s : store) (id : string) :
  ids_ok s →
  chatPairs (severed id s) !! id = None ∧
  videoChatPairs (severed id s) !! id = None.
Proof.
  intros I. unfold severed. destruct (partnerOf s id) as [p|] eqn:E.
  - rewrite (proj2 (truthy_id_Some p) (partnerOf_nonempty s id p I E)).
    simpl. split; apply eq_None_not_Some; intros [x Hx];
      apply lookup_delete_pair in Hx; tauto.
  - by apply partnerOf_None.
Qed.

Lemma onDisconnect_forgets (s : store) (id : string) :
  reachable s →
  chatPairs (step s (id, Disconnect)) !! id = None ∧
  videoChatPairs (step s (id, Disconnect)) !! id = None.
Proof.
  intros Hs. pose proof (reachable_ids_ok s Hs) as I.
  destruct (onDisconnect_store id s) as (E1 & E2 & _).
  unfold step. simpl fst. simpl snd. simpl handle.
  rewrite E1, E2. by apply severed_forgets.
Qed.

(** X11. After its disconnection a socket has no partner recorded, is not on
    the waiting list and is not reported. *)
Theorem disconnect_cleans (s : store) (id : string) :
  reachable s →
  let s' := step s (id, Disconnect) in
  chatPairs s' !! id = None ∧ videoChatPairs s' !! id = None ∧
  ¬ In id (waiting_ids s') ∧ id ∉ reportedUsers s'.
Proof.
  intros Hs s'. pose proof (reachable_ids_ok s Hs) as I.
  destruct (onDisconnect_store id s) as (E1 & E2 & E3).
  destruct (severed_forgets s id I) as [F1 F2].
  subst s'. unfold step. simpl fst. simpl snd. simpl handle.
  rewrite E1, E2. split; [done|]. split; [done|]. split.
  - unfold waiting_ids. rewrite E3. intros Hin.
    apply in_map_iff in Hin as (u & Eu & Hu).
    by apply (proj2 (remove_first_distinct id _
                       (reachable_waiting_distinct s Hs)) u).
  - apply onDisconnect_unreported.
Qed.

(** X12. In the pairing discipline, after the disconnection of a socket nobody
    has it as a partner. *)
Theorem disconnect_leaves_no_partner (s : store) (id a : string) :
  orderly s →
  let s' := step s (id, Disconnect) in
  chatPairs s' !! a ≠ Some id ∧ videoChatPairs s' !! a ≠ Some id.
Proof.
  intros Hs s'.
  pose proof (orderly_reachable s Hs) as Hr.
  assert (W : well_paired s').
  { apply well_paired_other; [done|by apply orderly_well_paired|].
    by apply reachable_ids_ok. }
  destruct (onDisconnect_forgets s id Hr) as (N1 & N2).
  split; intros E.
  - apply (wp_chat s' W) in E. fold s' in N1. congruence.
  - apply (wp_video s' W) in E. fold s' in N2. congruence.
Qed.

(** X13. A report ends the chat: the reported partner, and nobody else, is
    sent [chatEnded], and afterwards neither of the two has a partner; the
    waiting list is as before. *)
Theorem report_severs (s : store) (A B reason : string) :
  reachable s → partnerOf s A = Some B →
  let s' := step s (A, Report reason) in
  snd (handle A (Report reason) s) = [(B, EChatEnded)] ∧
  partnerOf s' A = None ∧ partnerOf s' B = None ∧
  waitingUsers s' = waitingUsers s.
Proof.
  intros Hs E s'. pose proof (reachable_ids_ok s Hs) as I.
  pose proof (partnerOf_nonempty s A B I E) as HB.
  subst s'. unfold step. simpl. unfold onReport. rewrite E.
  rewrite (proj2 (truthy_id_Some B) HB). simpl.
  assert (Hnone : ∀ (m : gmap string string) x,
            x = A ∨ x = B → delete B (delete A m) !! x = None).
  { intros m x Hx. apply eq_None_not_Some. intros [y Hy].
    apply lookup_delete_pair in Hy. tauto. }
  split; [done|]. unfold partnerOf, delete_pairs. simpl.
  rewrite !Hnone by auto. done.
Qed.

(** X15. Only [findChat] adds a pair or a waiting user: every other event
    leaves both maps and the waiting list as they are or smaller. *)
Theorem only_findChat_adds (s : store) (id : string) (e : event) :
  (∀ p v, e ≠ FindChat p v) →
  chatPairs (step s (id, e)) ⊆ chatPairs s ∧
  videoChatPairs (step s (id, e)) ⊆ videoChatPairs s ∧
  ∀ u, In u (waitingUsers (step s (id, e))) → In u (waitingUsers s).
Proof.
  intros Hne. rewrite !map_subseteq_spec.
  unfold step. simpl fst. simpl snd.
  destruct e as [p v|t o|t o|t o| |m|reason| ]; simpl handle.
  - by destruct (Hne p v).
  - unfold onOffer. by case_bool_decide.
  - unfold onAnswer. by case_bool_decide.
  - unfold onIceCandidate. by case_bool_decide.
  - rewrite onNext_store, severed_waitingUsers.
    split; [|split]; [intros x y Hxy; by apply severed_lookup in Hxy..|done].
  - unfold onMessage. destruct (chatPairs s !! id); [|done].
    by destruct (truthy_id _).
  - destruct (onReport_store id reason s) as (E1 & E2 & E3).
    rewrite E1, E2, E3.
    split; [|split]; [intros x y Hxy; by apply severed_lookup in Hxy..|done].
  - destruct (onDisconnect_store id s) as (E1 & E2 & E3).
    rewrite E1, E2, E3.
    split; [|split]; [intros x y Hxy; by apply severed_lookup in Hxy..|].
    intros u. apply remove_first_In.
Qed.

(** X16. Whoever enters [reportedUsers] was, at that moment, the partner
    resolved for a socket that sent a report. *)
Theorem only_report_blocks (s : store) (id : string) (e : event) (x : string) :
  x ∈ reportedUsers (step s (id, e)) →
  x ∈ reportedUsers s ∨ (∃ reason, e = Report reason) ∧ partnerOf s id = Some x.
Proof.
  unfold step. simpl fst. simpl snd.
  destruct e as [p v|t o|t o|t o| |m|reason| ]; simpl handle.
  - unfold onFindChat. destruct (validatePreferences _); [|by left]. simpl.
    match goal with
    | |- context [findBestMatch ?s1 ?u] => destruct (findBestMatch s1 u)
    end; [destruct v|]; by left.
  - unfold onOffer. case_bool_decide; by left.
  - unfold onAnswer. case_bool_decide; by left.
  - unfold onIceCandidate. case_bool_decide; by left.
  - unfold onNext. destruct (partnerOf s id) as [q|]; simpl.
    + destruct (negb _); simpl; destruct (find _ _); by left.
    + destruct (find _ _); by left.
  - unfold onMessage. destruct (chatPairs s !! id); [|by left].
    destruct (truthy_id _); by left.
  - unfold onReport. destruct (partnerOf s id) as [q|]; [|by left].
    destruct (truthy_id _); [|by left]. simpl.
    rewrite elem_of_union, elem_of_singleton.
    intros [->|Hx]; [right|by left]. split; [by exists reason|done].
  - unfold onDisconnect.
    assert (Hsub : ∀ r : gset string, x ∈ r ∖ {[id]} → x ∈ r).
    { intros r Hr. by apply elem_of_difference in Hr as [Hr _]. }
    destruct (partnerOf s id) as [q|]; simpl.
    + destruct (negb _); simpl; intros Hx; left; by apply Hsub.
    + intros Hx; left; by apply Hsub.
Qed.

(** X17. An event of a socket reaches that socket, its partner in one of the
    maps, or, for [findChat], a user who was waiting; nobody else. *)
Theorem emissions_stay_in_pair (s : store) (id : string) (e : event)
    (to : string) (ev : emitted) :
  In (to, ev) (snd (handle id e s)) →
  to = id ∨ chatPairs s !! id = Some to ∨ videoChatPairs s !! id = Some to ∨
  ((∃ p v, e = FindChat p v) ∧ In to (waiting_ids s)).
Proof.
  assert (Hp : ∀ q, partnerOf s id = Some q →
            chatPairs s !! id = Some q ∨ videoChatPairs s !! id = Some q).
  { unfold partnerOf, js_or. intros q.
    destruct (truthy_id (chatPairs s !! id)); auto. }
  destruct e as [p v|t o|t o|t o| |m|reason| ]; simpl handle.
  - unfold onFindChat. destruct (validatePreferences _); simpl.
    + match goal with
      | |- context [findBestMatch ?s1 ?u] =>
          destruct (findBestMatch s1 u) as [w|] eqn:E
      end; simpl.
      * apply findBestMatch_sound in E as (Hw & _). simpl in Hw.
        apply remove_first_In in Hw.
        intros [[= <- _]|[[= <- _]|[]]]; [by left|].
        right. right. right. split; [eauto|].
        unfold waiting_ids. apply in_map_iff. by exists w.
      * intros [[= <- _]|[]]. by left.
    + intros [[= <- _]|[]]. by left.
  - unfold onOffer. case_bool_decide as E; simpl; [|done].
    intros [[= <- _]|[]]. auto.
  - unfold onAnswer. case_bool_decide as E; simpl; [|done].
    intros [[= <- _]|[]]. auto.
  - unfold onIceCandidate. case_bool_decide as E; simpl; [|done].
    intros [[= <- _]|[]]. auto.
  - unfold onNext. destruct (partnerOf s id) as [q|] eqn:E.
    + specialize (Hp q eq_refl).
      destruct (truthy_id (Some q)); destruct (find _ _); simpl;
        intros Hin; repeat (destruct Hin as [[= <- _]|Hin]);
        try (by destruct Hin); tauto.
    + destruct (find _ _); simpl; [|done]. intros [[= <- _]|[]]. by left.
  - unfold onMessage. destruct (chatPairs s !! id) as [q|] eqn:E; [|done].
    destruct (truthy_id _); [|done].
    destruct (negb _); simpl; intros Hin;
      repeat (destruct Hin as [[= <- _]|Hin]); try (by destruct Hin); tauto.
  - unfold onReport. destruct (partnerOf s id) as [q|] eqn:E; [|done].
    specialize (Hp q eq_refl). destruct (truthy_id _); [|done]. simpl.
    intros [[= <- _]|[]]. tauto.
  - unfold onDisconnect. destruct (partnerOf s id) as [q|] eqn:E; [|done].
    specialize (Hp q eq_refl). destruct (truthy_id (Some q)); [|done]. simpl.
    intros [[= <- _]|[]]. tauto.
Qed.

(** X18. In the pairing discipline the two kinds of chat are apart: a socket
    with a text partner relays no signalling, and a socket with a video
    partner sends no message. *)
Theorem modes_apart (s : store) (A C m : string) (k : relay_kind)
    (payload : jsval) :
  orderly s →
  (is_Some (chatPairs s !! A) →
   snd (handle A (relay_event k C payload) s) = []) ∧
  (is_Some (videoChatPairs s !! A) →
   snd (handle A (Message m) s) = []).
Proof.
  intros Hs. pose proof (orderly_well_paired s Hs) as W. split.
  - intros Hc. pose proof (wp_exclusive s W A Hc) as N.
    destruct k; simpl; unfold onOffer, onAnswer, onIceCandidate;
      rewrite N; by case_bool_decide.
  - intros Hv. simpl. unfold onMessage.
    destruct (chatPairs s !! A) as [q|] eqn:E; [|done].
    rewrite (wp_exclusive s W A (ltac:(eauto))) in Hv. by destruct Hv.
Qed.

(** X10. [findChat] answers [error] exactly when its argument is neither
    [null] nor [undefined] and one of the four field tests fails; the
    values of well-typed fields are not looked at. *)
Theorem findChat_error_iff (s : store) (id : string) (data : jsval) :
  (∃ st out text,
     findChat_listener id data s = Returned (st, out) ∧
     In (id, EError text) out) ↔
  (data ≠ JUndefined ∧ data ≠ JNull ∧
   (isArray (prop (prop data "preferences") "tags") = false ∨
    typeof_string (prop (prop data "preferences") "language") = false ∨
    typeof_string (prop (prop data "preferences") "ageGroup") = false ∨
    typeof_boolean (prop (prop data "preferences") "agreeToGuidelines")
    = false)).
Proof.
  set (p := prop data "preferences").
  set (v := truthy (prop data "isVideoChat")).
  assert (R : data ≠ JUndefined → data ≠ JNull →
              findChat_listener id data s = Returned (onFindChat id p v s)).
  { intros Hu Hn. unfold findChat_listener. by destruct data. }
  split.
  - intros (st & out & text & E & Hin).
    assert (Hu : data ≠ JUndefined) by (intros ->; discriminate).
    assert (Hn : data ≠ JNull) by (intros ->; discriminate).
    split; [done|]. split; [done|].
    rewrite (R Hu Hn) in E. injection E as E. revert E Hin.
    unfold onFindChat. destruct (validatePreferences p) eqn:V; simpl.
    + match goal with
      | |- context [findBestMatch ?s1 ?u] => destruct (findBestMatch s1 u)
      end; intros [= <- <-] Hin;
        repeat (destruct Hin as [Hin|Hin]; [discriminate|]); done.
    + intros _ _. unfold validatePreferences in V.
      destruct p as [| | | | | |fields]; try (by left).
      cbn [truthy andb] in V.
      destruct (isArray _); [|by left].
      destruct (typeof_string (prop _ "language")); [|by right; left].
      destruct (typeof_string (prop _ "ageGroup")); [|by right; right; left].
      destruct (typeof_boolean _); [done|by right; right; right].
  - intros (Hu & Hn & Hbad). rewrite (R Hu Hn).
    pose proof (findChat_malformed_again s id p v Hbad) as E. simpl in E.
    rewrite E. do 3 eexists. split; [done|]. by left.
Qed.

End HandlerFacts.

Lemma asks_while_paired_reachable : reachable (run initial asks_while_paired).
Proof.
  apply reachable_run; [constructor|]. repeat constructor; discriminate.
Qed.

Lemma third_waits_orderly : orderly (run initial third_waits).
Proof.
  apply orderly_run; [constructor|].
  intros [|[|[|i]]] ie; simpl; intros [= <-]; by vm_compute.
Qed.

Lemma waiting_distinct_witness :
  NoDup (waiting_ids (run initial asks_while_paired)).
Proof. apply waiting_distinct, asks_while_paired_reachable. Defined.

Lemma findChat_outcome_witness :
  let s := run initial third_waits in
  let s' := step s ("D", FindChat art_gaming false) in
  reportedUsers s' = reportedUsers s ∧
  ((∃ m, In m (waitingUsers s) ∧ socketId m ≠ "D" ∧
         findCommonTags (tags (as_preferences art_gaming))
                        (tags (preferences m)) ≠ [] ∧
         snd (handle "D" (FindChat art_gaming false) s)
         = [("D", EChatFound
                    (findCommonTags (tags (as_preferences art_gaming))
                                    (tags (preferences m)))
                    false (socketId m));
            (socketId m, EChatFound
                    (findCommonTags (tags (as_preferences art_gaming))
                                    (tags (preferences m)))
                    false "D")] ∧
         ¬ In "D" (waiting_ids s') ∧ ¬ In (socketId m) (waiting_ids s')) ∨
   (snd (handle "D" (FindChat art_gaming false) s) = [("D", EWaiting)] ∧
    waitingUsers s'
    = remove_first "D" (waitingUsers s)
      ++ [{| socketId := "D"; preferences := as_preferences art_gaming;
             isVideoChat := false |}] ∧
    chatPairs s' = chatPairs s ∧ videoChatPairs s' = videoChatPairs s)).
Proof.
  apply (findChat_outcome (run initial third_waits) "D" art_gaming false).
  - apply orderly_reachable, third_waits_orderly.
  - reflexivity.
Defined.

Lemma disconnect_cleans_witness :
  let s' := step (run initial asks_while_paired) ("A", Disconnect) in
  chatPairs s' !! "A" = None ∧ videoChatPairs s' !! "A" = None ∧
  ¬ In "A" (waiting_ids s') ∧ "A" ∉ reportedUsers s'.
Proof.
  apply (disconnect_cleans (run initial asks_while_paired) "A").
  apply asks_while_paired_reachable.
Defined.

Lemma disconnect_leaves_no_partner_witness :
  let s' := step (run initial third_waits) ("A", Disconnect) in
  chatPairs s' !! "B" ≠ Some "A" ∧ videoChatPairs s' !! "B" ≠ Some "A".
Proof.
  apply (disconnect_leaves_no_partner (run initial third_waits) "A" "B").
  apply third_waits_orderly.
Defined.

Lemma report_severs_witness :
  let s := run initial text_pair in
  let s' := step s ("A", Report "abusive") in
  snd (handle "A" (Report "abusive") s) = [("B", EChatEnded)] ∧
  partnerOf s' "A" = None ∧ partnerOf s' "B" = None ∧
  waitingUsers s' = waitingUsers s.
Proof.
  apply (report_severs (run initial text_pair) "A" "B" "abusive").
  - apply text_pair_reachable.
  - by vm_compute.
Defined.

Lemma next_severs_witness :
  handle "A" Next (run initial third_waits)
  = (delete_pairs "A" "B" (run initial third_waits), [("B", EChatEnded)]).
Proof.
  apply (next_severs (run initial third_waits) "A" "B").
  - apply third_waits_orderly.
  - by vm_compute.
Defined.

Lemma only_findChat_adds_witness :
  let s := run initial third_waits in
  chatPairs (step s ("B", Next)) ⊆ chatPairs s ∧
  videoChatPairs (step s ("B", Next)) ⊆ videoChatPairs s ∧
  ∀ u, In u (waitingUsers (step s ("B", Next))) → In u (waitingUsers s).
Proof.
  apply (only_findChat_adds (run initial third_waits) "B" Next).
  discriminate.
Defined.

Lemma only_report_blocks_witness :
  "B" ∈ reportedUsers (run initial text_pair) ∨
  (∃ reason, Report "abusive" = Report reason) ∧
  partnerOf (run initial text_pair) "A" = Some "B".
Proof.
  apply (only_report_blocks (run initial text_pair) "A" (Report "abusive") "B").
  by vm_compute.
Defined.

Lemma emissions_stay_in_pair_witness :
  "B" = "A" ∨ chatPairs (run initial text_pair) !! "A" = Some "B" ∨
  videoChatPairs (run initial text_pair) !! "A" = Some "B" ∨
  ((∃ p v, Message "hello" = FindChat p v) ∧
   In "B" (waiting_ids (run initial text_pair))).
Proof.
  apply (emissions_stay_in_pair (run initial text_pair) "A" (Message "hello")
           "B" (EMessage "hello")).
  vm_compute. by left.
Defined.

Lemma modes_apart_witness :
  (is_Some (chatPairs (run initial text_pair) !! "A") →
   snd (handle "A" (relay_event KOffer "B" JNull) (run initial text_pair)) = []) ∧
  (is_Some (videoChatPairs (run initial text_pair) !! "A") →
   snd (handle "A" (Message "hello") (run initial text_pair)) = []).
Proof.
  apply (modes_apart (run initial text_pair) "A" "B" "hello" KOffer JNull).
  apply text_pair_orderly.
Defined.

(** * The client *)

Section ClientFacts.
Context {engine : ArraySort}.

(** X19. The line the sender sees for its own message is the text its partner
    is sent, and it is marked as moderated exactly when the server sends
    the moderation notice: client and server filter alike. *)
Theorem echo_matches_delivery (s : store) (A P input : string) (socket : bool)
    (st : Client.status) (e : event) (own : Client.Message) :
  reachable s → chatPairs s !! A = Some P →
  Client.sendMessage input socket st = Some (e, own) →
  e = Message input ∧
  snd (handle A e s)
  = (if Client.wasModerated own
     then [(A, EMessageModerated input (Client.text own) moderation_reason)]
     else [])
    ++ [(P, EMessage (Client.text own))].
Proof.
  intros Hs HP. unfold Client.sendMessage.
  destruct (_ && _ && _); [|done]. intros [= <- <-]. split; [done|].
  rewrite (onMessage_paired s A P input Hs HP). simpl.
  change (Client.filterMessage input) with (filterMessage input).
  reflexivity.
Qed.

Lemma includes_tag_In (tag : string) (l : list string) :
  Client.includes_tag tag l = true ↔ In tag l.
Proof.
  unfold Client.includes_tag. rewrite existsb_exists. split.
  - intros (y & Hy & E). apply String.eqb_eq in E. by subst y.
  - intros Hin. exists tag. split; [done|]. apply String.eqb_refl.
Qed.

Lemma without_tag_In (tag x : string) (l : list string) :
  In x (Client.without_tag tag l) ↔ In x l ∧ x ≠ tag.
Proof.
  unfold Client.without_tag. rewrite filter_In, negb_true_iff.
  by rewrite String.eqb_neq.
Qed.

Lemma without_tag_NoDup (tag : string) (l : list string) :
  NoDup l → NoDup (Client.without_tag tag l).
Proof.
  induction 1 as [|x l Hx Hl IH]; simpl; [constructor|].
  destruct (negb _); [|done]. constructor; [|done].
  rewrite list_elem_of_In, without_tag_In, <- list_elem_of_In. tauto.
Qed.

Lemma snoc_NoDup (tag : string) (l : list string) :
  NoDup l → Client.includes_tag tag l = false → NoDup (l ++ [tag]).
Proof.
  intros Hl Hn. apply NoDup_app. split; [done|]. split.
  - intros x Hx Hx'. apply list_elem_of_In in Hx, Hx'.
    destruct Hx' as [<-|[]]. apply includes_tag_In in Hx. congruence.
  - apply NoDup_singleton.
Qed.

(** X20. The three tag handlers of the home page keep the tags distinct. *)
Theorem tags_stay_distinct (p : Client.UserPreferences) (tag custom : string) :
  NoDup (Client.tags p) →
  NoDup (Client.tags (Client.toggleTag tag p)) ∧
  NoDup (Client.tags (fst (Client.handleAddCustomTag custom p))) ∧
  NoDup (Client.tags (Client.handleRemoveTag tag p)).
Proof.
  intros D. split; [|split].
  - unfold Client.toggleTag. simpl.
    destruct (Client.includes_tag tag _) eqn:E;
      [by apply without_tag_NoDup|by apply snoc_NoDup].
  - unfold Client.handleAddCustomTag.
    destruct (negb (String.eqb _ _)); simpl; [|done].
    destruct (Client.includes_tag _ _) eqn:E; simpl; [done|].
    by apply snoc_NoDup.
  - by apply without_tag_NoDup.
Qed.

Lemma toggleTag_In (p : Client.UserPreferences) (tag x : string) :
  In x (Client.tags (Client.toggleTag tag p)) ↔
  (x = tag ∧ ¬ In tag (Client.tags p)) ∨ (x ≠ tag ∧ In x (Client.tags p)).
Proof.
  unfold Client.toggleTag. simpl.
  destruct (Client.includes_tag tag _) eqn:E.
  - apply includes_tag_In in E. rewrite without_tag_In. tauto.
  - assert (N : ¬ In tag (Client.tags p)).
    { intros Hin. apply includes_tag_In in Hin. congruence. }
    rewrite in_app_iff. simpl.
    destruct (decide (x = tag)) as [->|Hne]; [tauto|].
    split; [intros [?|[?|[]]]|]; try tauto. congruence.
Qed.

(** X21. Toggling a tag changes whether that tag is selected and nothing else;
    toggling it twice gives the selection back. *)
Theorem toggleTag_toggles (p : Client.UserPreferences) (tag x : string) :
  (In tag (Client.tags (Client.toggleTag tag p)) ↔ ¬ In tag (Client.tags p)) ∧
  (x ≠ tag →
   (In x (Client.tags (Client.toggleTag tag p)) ↔ In x (Client.tags p))) ∧
  (In x (Client.tags (Client.toggleTag tag (Client.toggleTag tag p))) ↔
   In x (Client.tags p)).
Proof.
  assert (Dec : In tag (Client.tags p) ∨ ¬ In tag (Client.tags p)).
  { destruct (Client.includes_tag tag (Client.tags p)) eqn:E.
    - left. by apply includes_tag_In.
    - right. intros Hin. apply includes_tag_In in Hin. congruence. }
  split; [|split].
  - rewrite toggleTag_In. tauto.
  - intros Hne. rewrite toggleTag_In. tauto.
  - rewrite toggleTag_In, !(toggleTag_In p).
    destruct (decide (x = tag)) as [->|Hne]; tauto.
Qed.

End ClientFacts.

Section TrimFacts.

Lemma trimStart_snoc (a : list ascii) (c : ascii) :
  Client.is_space c = false →
  Client.trimStart (a ++ [c]) = Client.trimStart a ++ [c].
Proof.
  intros Hc. induction a as [|x a IH]; simpl; [by rewrite Hc|].
  by destruct (Client.is_space x).
Qed.

Lemma trimStart_head (l : list ascii) :
  match Client.trimStart l with
  | [] => True
  | c :: _ => Client.is_space c = false
  end.
Proof.
  induction l as [|x l IH]; simpl; [done|].
  by destruct (Client.is_space x) eqn:E.
Qed.

Lemma trimStart_fixed (l : list ascii) :
  match l with [] => True | c :: _ => Client.is_space c = false end →
  Client.trimStart l = l.
Proof. destruct l as [|c l]; simpl; [done|]. by intros ->. Qed.

Lemma trimStart_idemp (l : list ascii) :
  Client.trimStart (Client.trimStart l) = Client.trimStart l.
Proof. apply trimStart_fixed, trimStart_head. Qed.

Lemma trimEnd_head (l : list ascii) :
  match l with [] => True | c :: _ => Client.is_space c = false end →
  match Client.trimEnd l with
  | [] => True
  | c :: _ => Client.is_space c = false
  end.
Proof.
  destruct l as [|c l]; [done|]. intros Hc. unfold Client.trimEnd. simpl.
  rewrite (trimStart_snoc _ _ Hc), rev_app_distr. by simpl.
Qed.

Lemma trim_idemp (s : string) : Client.trim (Client.trim s) = Client.trim s.
Proof.
  unfold Client.trim. rewrite list_ascii_of_string_of_list_ascii. f_equal.
  set (t := Client.trimStart (list_ascii_of_string s)).
  rewrite (trimStart_fixed (Client.trimEnd t)).
  - unfold Client.trimEnd. by rewrite rev_involutive, trimStart_idemp.
  - apply trimEnd_head, trimStart_head.
Qed.

Lemma trim_spaces (s : string) :
  forallb Client.is_space (list_ascii_of_string s) = true →
  Client.trim s = "".
Proof.
  unfold Client.trim. intros F.
  replace (Client.trimStart (list_ascii_of_string s)) with (@nil ascii); [done|].
  induction (list_ascii_of_string s) as [|c l IH]; [done|]. simpl in *.
  apply andb_prop in F as [-> F]. by apply IH.
Qed.

(** X22. The custom tag field adds one tag at most: the text of the field
    without the white space around it, which is not empty.  A field of
    white space only changes nothing. *)
Theorem custom_tag_trimmed (custom : string) (p : Client.UserPreferences)
    (x : string) :
  (In x (Client.tags (fst (Client.handleAddCustomTag custom p))) →
   In x (Client.tags p) ∨
   (x = Client.trim custom ∧ x ≠ "" ∧ Client.trim x = x)) ∧
  (forallb Client.is_space (list_ascii_of_string custom) = true →
   Client.handleAddCustomTag custom p = (p, custom)).
Proof.
  unfold Client.handleAddCustomTag. split.
  - destruct (String.eqb (Client.trim custom) "") eqn:E; simpl; [by left|].
    apply String.eqb_neq in E.
    destruct (Client.includes_tag _ _); simpl; [by left|].
    rewrite in_app_iff. simpl. intros [Hin|[<-|[]]]; [by left|].
    right. by rewrite trim_idemp.
  - intros F. by rewrite (trim_spaces custom F).
Qed.

End TrimFacts.

Section StartFacts.
Context {engine : ArraySort}.

(** X23. The start button lets through only preferences with the guidelines
    agreed to and a tag at least; the server accepts them, reads them as
    they are, and never answers the chat page's [findChat] with [error]. *)
Theorem started_chat_is_accepted (b : Client.browser)
    (p q : Client.UserPreferences) (s : store) (id to text : string) :
  Client.handleStartChat b p = Client.Started q →
  q = p ∧ Client.agreeToGuidelines q = true ∧ Client.tags q ≠ [] ∧
  validatePreferences (Client.to_jsval q) = true ∧
  as_preferences (Client.to_jsval q)
  = {| tags := Client.tags q; language := Client.language q;
       ageGroup := Client.ageGroup q;
       agreeToGuidelines := Client.agreeToGuidelines q |} ∧
  ¬ In (to, EError text) (snd (handle id (Client.onConnect q) s)).
Proof.
  unfold Client.handleStartChat.
  destruct (Client.agreeToGuidelines p) eqn:Ea; simpl; [|done].
  destruct (Client.tags p) as [|t ts] eqn:Et; simpl; [done|].
  intros Hq.
  assert (q = p) as ->.
  { destruct (Client.isVideoChat p); [|congruence].
    destruct (Client.mediaDevices b); simpl in Hq; [|done].
    destruct (Client.getUserMedia b); congruence. }
  split; [done|]. split; [done|]. split; [by rewrite Et|].
  split; [done|]. split; [done|].
  simpl. unfold onFindChat. simpl.
  match goal with
  | |- context [findBestMatch ?s1 ?u] => destruct (findBestMatch s1 u)
  end; simpl; intros Hin;
    repeat (destruct Hin as [Hin|Hin]; [discriminate|]); done.
Qed.

End StartFacts.

Lemma echo_matches_delivery_witness :
  snd (handle "A" (Message "you idiot wh0re") (run initial text_pair))
  = [("A", EMessageModerated "you idiot wh0re" "you idiot ***"
             moderation_reason);
     ("B", EMessage "you idiot ***")].
Proof.
  pose proof (echo_matches_delivery (run initial text_pair) "A" "B"
                "you idiot wh0re" true Client.chatting
                (Message "you idiot wh0re")
                {| Client.text := "you idiot ***"; Client.isOwn := true;
                   Client.wasModerated := true |}
                text_pair_reachable) as W.
  apply W; by vm_compute.
Defined.

Lemma tags_stay_distinct_witness :
  NoDup (Client.tags (Client.toggleTag "Art"
           (Client.set_tags ["Music"; "Art"] Client.initial_preferences))) ∧
  NoDup (Client.tags (fst (Client.handleAddCustomTag " Chess "
           (Client.set_tags ["Music"; "Art"] Client.initial_preferences)))) ∧
  NoDup (Client.tags (Client.handleRemoveTag "Art"
           (Client.set_tags ["Music"; "Art"] Client.initial_preferences))).
Proof.
  apply (tags_stay_distinct
           (Client.set_tags ["Music"; "Art"] Client.initial_preferences)
           "Art" " Chess ").
  apply (bool_decide_unpack _). by vm_compute.
Defined.

Lemma toggleTag_toggles_witness :
  In "Art" (Client.tags (Client.toggleTag "Music"
             (Client.set_tags ["Music"; "Art"] Client.initial_preferences))) ↔
  In "Art" (Client.tags
             (Client.set_tags ["Music"; "Art"] Client.initial_preferences)).
Proof.
  apply (toggleTag_toggles
           (Client.set_tags ["Music"; "Art"] Client.initial_preferences)
           "Music" "Art").
  discriminate.
Defined.

Lemma custom_tag_trimmed_witness :
  In "Chess" (Client.tags Client.initial_preferences) ∨
  ("Chess" = Client.trim " Chess " ∧ "Chess" ≠ "" ∧
   Client.trim "Chess" = "Chess").
Proof.
  apply (proj1 (custom_tag_trimmed " Chess " Client.initial_preferences "Chess")).
  vm_compute. by left.
Defined.

Lemma started_chat_is_accepted_witness :
  let p := Client.set_tags ["Music"; "Art"]
             {| Client.tags := []; Client.language := "English";
                Client.ageGroup := "18-24";
                Client.agreeToGuidelines := true;
                Client.isVideoChat := false |} in
  validatePreferences (Client.to_jsval p) = true ∧
  ¬ In ("C", EError "Invalid preferences format")
       (snd (handle "C" (Client.onConnect p) (run initial text_pair))).
Proof.
  intros p.
  pose proof (started_chat_is_accepted
                {| Client.mediaDevices := false; Client.getUserMedia := false |}
                p p (run initial text_pair) "C" "C"
                "Invalid preferences format" eq_refl)
    as (_ & _ & _ & V & _ & N).
  by split.
Defined.
